(** * Game positions of the CS4 game solver: Kayles, Crossout and Connect-3

    A shallow embedding of the position classes of [KaylesState.h],
    [CrossoutState.cpp] and [Connect3State.h], and the properties their
    contract states about them.

    Conventions of the embedding.
    - An [int] is a [Z]; an [unsigned int] and a [size_t] are an [N] or the
      length of a list.  Counters and sums are computed in [Z]; the hash of
      [CrossoutState::cacheHash], which shifts bits up to the sign bit, is
      computed with the wrap-around of a 32-bit [int] written out
      ([int_wrap]); a shift by the width of [int] or more is undefined.
      Where an [int] meets a [size_t] in a comparison, the conversion of
      the [int] is written out ([int_lt_size]).
    - A [std::vector] is a [list]; [v[i]] is a lookup, [v[i]=x] an insert.
    - [assert] is enabled: a function that asserts returns an [outcome],
      which records the assertion that stopped it.  The functions named
      [_NDEBUG] are those of the build that defines NDEBUG, where the
      preprocessor removes every [assert] with its condition. *)

From stdpp Require Import base numbers list strings pretty.
From Stdlib Require Import Ascii.

Local Open Scope Z_scope.

(** ** Outcomes of a call *)

(** The assertions of the sources, one constructor per [assert]. *)
Inductive assertion : Set :=
| first_theft_in_range   (* assert( firstTheft>=0 && firstTheft<tray.size() ) *)
| second_theft_in_range  (* assert( secondTheft<tray.size() ) *)
| first_theft_present    (* assert( tray[firstTheft] ) *)
| second_theft_present   (* assert( tray[secondTheft] ) *)
| subsequent_states      (* assert( subsequentStates ) *)
| hash_not_negative      (* assert( hashCode>=0 ) *)
| column_in_range.       (* assert( column<COLUMNS ) *)

(** A call returns a value, is stopped by a failed assertion, or does what
    C++ leaves undefined: it reads or writes a vector out of its bounds,
    shifts an [int] by its width or more, or takes [abs] of the least [int]
    with no assertion behind it. *)
Inductive outcome (A : Type) : Type :=
| Returns (a : A)
| Aborts (failed : assertion)
| Undefined.

Arguments Returns {A} a.
Arguments Aborts {A} failed.
Arguments Undefined {A}.

Definition andThen {A B : Type} (c : outcome A) (k : A -> outcome B) : outcome B :=
  match c with
  | Returns a => k a
  | Aborts failed => Aborts failed
  | Undefined => Undefined
  end.

Notation "x <- c ;; k" := (andThen c (fun x => k))
  (at level 100, c at next level, right associativity).
Notation "c ;;; k" := (andThen c (fun _ => k))
  (at level 100, right associativity).

Definition assert (condition : bool) (which : assertion) : outcome unit :=
  if condition then Returns tt else Aborts which.

(** Runs [call] on the elements of a list from left to right and stops at
    the first that does not return. *)
Fixpoint forEach {A B : Type} (call : A -> outcome B) (l : list A) : outcome (list B) :=
  match l with
  | [] => Returns []
  | a :: l' => b <- call a ;; bs <- forEach call l' ;; Returns (b :: bs)
  end.

(** ** Integers and vectors of the sources *)

(** The value a 32-bit two's complement [int] keeps of [z]. *)
Definition int_wrap (z : Z) : Z := (z + 2 ^ 31) `mod` 2 ^ 32 - 2 ^ 31.

(** [x << n] on [int], for [0 <= n < 32]: the low 32 bits of the product,
    also where the shift reaches the sign bit.  A shift by 32 bits or more
    is undefined; [cacheHash] does not get to this function then. *)
Definition int_shl (x n : Z) : Z := int_wrap (Z.shiftl x n).

(** [i < v.size()] for an [int i]: [size()] is a [size_t], so the usual
    arithmetic conversions turn [i] into a [size_t] before the comparison.
    A negative [i] becomes a value near the top of [size_t], above the size
    of every vector, and the comparison is false; a non-negative [i] keeps
    its value. *)
Definition int_lt_size (i : Z) (size : nat) : bool :=
  (0 <=? i) && (i <? Z.of_nat size).

(** [v[i]] on a [vector<bool>], read at an index in range. *)
Definition bit_at (v : list bool) (i : Z) : bool := default false (v !! Z.to_nat i).

(** [std::equal( first1, last1, first2 )]: compares the first range with as
    many elements of the second, which it reads without knowing where it
    ends. *)
Fixpoint std_equal {A : Type} (same : A -> A -> bool) (range1 range2 : list A) : outcome bool :=
  match range1, range2 with
  | [], _ => Returns true
  | x :: range1', y :: range2' =>
      if same x y then std_equal same range1' range2' else Returns false
  | _ :: _, [] => Undefined
  end.

(** A [for] loop whose counter runs through [counters] while [condition]
    holds of it; [body] updates the loop's state or stops the function. *)
Fixpoint forLoop {S : Type} (counters : list Z) (condition : Z -> bool)
    (body : Z -> S -> outcome S) (state : S) : outcome S :=
  match counters with
  | [] => Returns state
  | i :: counters' =>
      if condition i
      then state' <- body i state ;; forLoop counters' condition body state'
      else Returns state
  end.

(** The counters of a [forLoop] for which the body runs: those before the
    first that fails the condition. *)
Fixpoint whileHolds (condition : Z -> bool) (counters : list Z) : list Z :=
  match counters with
  | [] => []
  | i :: counters' => if condition i then i :: whileHolds condition counters' else []
  end.

(** The counters [from], [from+1], ... of a loop that makes at most
    [count] rounds. *)
Definition countingFrom (from : Z) (count : nat) : list Z :=
  map (fun k => from + Z.of_nat k) (seq 0 count).

(** The possible "scores" resulting from a complete match. *)
Inductive Score : Set := LOSS | TIE | VICTORY.

Definition scoreValue (s : Score) : Z :=
  match s with LOSS => -1 | TIE => 0 | VICTORY => 1 end.

(** ** KaylesState.h *)

Module Kayles.

(** The maximum and minimum number of pins a player may topple per turn. *)
Definition MAX_TAKEN : Z := 2.
Definition MIN_TAKEN : Z := 1.

Record KaylesState : Type := {
  pins : list Z;       (* one pin count per group of pins *)
  ourTurn : bool;      (* whether the computer player is up *)
  hashCode : Z         (* caches the current hash code *)
}.

Section ScoreGame.

(** [KaylesState::gameOver] is defined in KaylesState.cpp, which is not
    among the sources: [scoreGame] takes it as it finds it. *)
Variable gameOver : KaylesState -> bool.

Definition scoreGame (s : KaylesState) : Score :=
  if gameOver s
  then if ourTurn s then LOSS else VICTORY
  else TIE.

End ScoreGame.

Definition computersTurn (s : KaylesState) : bool := ourTurn s.

Definition groupsOfPins (s : KaylesState) : Z := Z.of_nat (length (pins s)).

(** [group] is an [unsigned int]. *)
Definition pinsInGroup (s : KaylesState) (group : N) : Z :=
  if (N.of_nat (length (pins s)) <=? group)%N
  then -1
  else default 0 (pins s !! N.to_nat group).

Definition hash (s : KaylesState) : Z := hashCode s.

(** [operator==]: the operands of [&&] are evaluated from left to right,
    and [equal] only once the sizes agree. *)
Definition equals (this another : KaylesState) : outcome bool :=
  if Bool.eqb (ourTurn this) (ourTurn another)
  then if Nat.eqb (length (pins this)) (length (pins another))
       then std_equal Z.eqb (pins this) (pins another)
       else Returns false
  else Returns false.

End Kayles.

(** ** CrossoutState.cpp *)

Module Crossout.

(** Modelled from the spec: CrossoutState.h, which declares the class, is
    not among the sources.  "A move removes one or two still-present
    numbers": [MIN_TAKEN] and [MAX_TAKEN] are those of [KaylesState]. *)
Definition MAX_TAKEN : Z := 2.
Definition MIN_TAKEN : Z := 1.

(** Modelled from the spec: the default of the advancing constructor's
    [secondTheft], which [successors] relies on for "a sole removal", is
    declared in CrossoutState.h.  Numbers are 1-based and the constructor
    takes a second number only when [secondTheft-1 > -1], so the default is
    taken to be [0]. *)
Definition NO_SECOND_THEFT : Z := 0.

Record CrossoutState : Type := {
  MAX_SUM : Z;         (* the sum bound, an int as the constructor's greedyDivide *)
  tray : list bool;    (* tray[n-1]: whether number n is still present *)
  ourTurn : bool;      (* whether the computer player is up *)
  hashCode : Z         (* caches the current hash code *)
}.

(** [cacheHash]: the loop over the tray, [count] being the position of the
    iterator. *)
Fixpoint hashBits (count : Z) (rest : list bool) (hashCode : Z) : Z :=
  match rest with
  | [] => hashCode
  | present :: rest' =>
      hashBits (count + 1) rest' (int_wrap (hashCode + int_shl (Z.b2z present) count))
  end.

(** What [cacheHash] computes before its assertion: the shifted turn, the
    loop over the tray and [abs], each operation on [int] keeping the low
    32 bits of its result; [abs] of the least [int] is the least [int]. *)
Definition hashValue (ourTurn : bool) (tray : list bool) : Z :=
  int_wrap (Z.abs (hashBits 0 tray (int_shl (Z.b2z ourTurn) (Z.of_nat (length tray))))).

(** [cacheHash].  Its first shift is by [tray.size()], which is undefined
    for a tray of 32 numbers or more.  Its closing assertion stops it when
    the hash is negative, which it is after [abs] of the least [int]: on a
    tray of 31 numbers, all crossed out, with the computer to move. *)
Definition cacheHash (ourTurn : bool) (tray : list bool) : outcome Z :=
  if 32 <=? Z.of_nat (length tray) then Undefined
  else
    let hashCode := hashValue ourTurn tray in
    assert (0 <=? hashCode) hash_not_negative ;;;
    Returns hashCode.

(** The position with these members and their hash. *)
Definition construct (MAX_SUM : Z) (tray : list bool) (ourTurn : bool) : CrossoutState :=
  {| MAX_SUM := MAX_SUM; tray := tray; ourTurn := ourTurn;
     hashCode := hashValue ourTurn tray |}.

(** The end of both constructors: [cacheHash()] on the members that have
    been set. *)
Definition build (MAX_SUM : Z) (tray : list bool) (ourTurn : bool) : outcome CrossoutState :=
  hashCode <- cacheHash ourTurn tray ;;
  Returns {| MAX_SUM := MAX_SUM; tray := tray; ourTurn := ourTurn;
             hashCode := hashCode |}.

(** The constructor of a game: it pushes [true] for each of the numbers
    1..highValue and caches the hash. *)
Definition game (greedyDivide highValue : Z) (weAreUp : bool) : outcome CrossoutState :=
  build greedyDivide (replicate (Z.to_nat highValue) true) weAreUp.

(** The position that the constructor of a game returns (see
    [game_initial]): the numbers 1..highValue, all present. *)
Definition initial (greedyDivide highValue : Z) (weAreUp : bool) : CrossoutState :=
  construct greedyDivide (replicate (Z.to_nat highValue) true) weAreUp.

(** The advancing constructor.  It copies the sum bound and the tray,
    flips the turn, crosses out the first number and, when there is one,
    the second, and caches the hash; its four assertions and the one of
    [cacheHash] come first to last as in the source. *)
Definition advance (baseState : CrossoutState) (firstTheft secondTheft : Z)
    : outcome CrossoutState :=
  let tray0 := tray baseState in
  let firstTheft := firstTheft - 1 in      (* switch to 0-based indexing *)
  let secondTheft := secondTheft - 1 in    (* likewise *)
  assert ((0 <=? firstTheft) && int_lt_size firstTheft (length tray0))
    first_theft_in_range ;;;
  assert (int_lt_size secondTheft (length tray0)) second_theft_in_range ;;;
  assert (bit_at tray0 firstTheft) first_theft_present ;;;
  let tray1 := <[Z.to_nat firstTheft := false]> tray0 in
  tray2 <- (if -1 <? secondTheft
            then assert (bit_at tray1 secondTheft) second_theft_present ;;;
                 Returns (<[Z.to_nat secondTheft := false]> tray1)
            else Returns tray1) ;;
  build (MAX_SUM baseState) tray2 (negb (ourTurn baseState)).

(** [gameOver]: the loop from [location] on, [rest] being the tray from
    there; the loop ends when the tray does or at [location = MAX_TAKEN]. *)
Fixpoint gameOverFrom (location : Z) (rest : list bool) : bool :=
  match rest with
  | [] => true
  | present :: rest' =>
      if location <? MAX_TAKEN
      then if present then false else gameOverFrom (location + 1) rest'
      else true
  end.

Definition gameOver (s : CrossoutState) : bool := gameOverFrom 0 (tray s).

Definition scoreGame (s : CrossoutState) : Score :=
  if gameOver s
  then if ourTurn s then LOSS else VICTORY
  else TIE.

Definition computersTurn (s : CrossoutState) : bool := ourTurn s.

(** The counters 1..tray.size() of the loops of [successors]: they stand
    for the first operand of the loops' conditions, [first<=tray.size()]
    and [second<=tray.size()]. *)
Definition numbers (s : CrossoutState) : list Z := countingFrom 1 (length (tray s)).

(** [successors]: for each [first] the sole removal, then the joint
    removals with every [second] from 1 on. *)
Definition successors (s : CrossoutState) : outcome (list CrossoutState) :=
  forLoop (numbers s) (fun first => first <=? MAX_SUM s)
    (fun first possibilities =>
       if bit_at (tray s) (first - 1)
       then
         sole <- advance s first NO_SECOND_THEFT ;;
         forLoop (numbers s) (fun second => first + second <=? MAX_SUM s)
           (fun second possibilities =>
              if bit_at (tray s) (second - 1)
              then joint <- advance s first second ;;
                   Returns (possibilities ++ [joint])
              else Returns possibilities)
           (possibilities ++ [sole])
       else Returns possibilities)
    [].

Definition hash (s : CrossoutState) : Z := hashCode s.

(** [operator==]. *)
Definition equals (this another : CrossoutState) : outcome bool :=
  if MAX_SUM this =? MAX_SUM another
  then same <- std_equal Bool.eqb (tray this) (tray another) ;;
       Returns (same && Bool.eqb (ourTurn this) (ourTurn another))
  else Returns false.

(** [areSubsequent]: the loop from [num] on over the two trays, which have
    one size there.  [None] is its [return false]. *)
Fixpoint crossings (num : Z) (firstTray nextTray : list bool) (count sum : Z)
    : option (Z * Z) :=
  match firstTray, nextTray with
  | before :: firstTray', after :: nextTray' =>
      if after && negb before then None
      else if before && negb after
           then crossings (num + 1) firstTray' nextTray' (count + 1) (sum + (num + 1))
           else crossings (num + 1) firstTray' nextTray' count sum
  | _, _ => Some (count, sum)
  end.

Definition areSubsequent (first next : CrossoutState) : bool :=
  if negb (MAX_SUM first =? MAX_SUM next)
     || negb (Nat.eqb (length (tray first)) (length (tray next)))
     || Bool.eqb (ourTurn first) (ourTurn next)
  then false
  else match crossings 0 (tray first) (tray next) 0 0 with
       | None => false
       | Some (count, sum) =>
           (MIN_TAKEN <=? count) && (count <=? MAX_TAKEN) && (sum <=? MAX_SUM first)
       end.

(** [diff]: the loop from [num] on. *)
Fixpoint changes (num : Z) (firstTray nextTray : list bool) : list Z :=
  match firstTray, nextTray with
  | before :: firstTray', after :: nextTray' =>
      if negb (Bool.eqb before after)
      then (num + 1) :: changes (num + 1) firstTray' nextTray'
      else changes (num + 1) firstTray' nextTray'
  | _, _ => []
  end.

Definition diff (first next : CrossoutState) : outcome (list Z) :=
  assert (areSubsequent first next) subsequent_states ;;;
  Returns (changes 0 (tray first) (tray next)).

(** *** The build that defines NDEBUG *)

(** [v[i]=x] with no assertion before it: a write out of the bounds of the
    vector is undefined. *)
Definition store (v : list bool) (i : Z) (x : bool) : outcome (list bool) :=
  if int_lt_size i (length v) then Returns (<[Z.to_nat i := x]> v) else Undefined.

(** [cacheHash] without its assertion.  Nothing stops it where the hash
    has come to the least [int]; what [abs] makes of it is left undefined. *)
Definition cacheHash_NDEBUG (ourTurn : bool) (tray : list bool) : outcome Z :=
  if 32 <=? Z.of_nat (length tray) then Undefined
  else
    let hashCode := hashValue ourTurn tray in
    if hashCode <? 0 then Undefined else Returns hashCode.

Definition build_NDEBUG (MAX_SUM : Z) (tray : list bool) (ourTurn : bool)
    : outcome CrossoutState :=
  hashCode <- cacheHash_NDEBUG ourTurn tray ;;
  Returns {| MAX_SUM := MAX_SUM; tray := tray; ourTurn := ourTurn;
             hashCode := hashCode |}.

(** The advancing constructor without its assertions: it crosses out the
    first number and, when [secondTheft-1 > -1], the second, whether they
    were present or not. *)
Definition advance_NDEBUG (baseState : CrossoutState) (firstTheft secondTheft : Z)
    : outcome CrossoutState :=
  let tray0 := tray baseState in
  let firstTheft := firstTheft - 1 in
  let secondTheft := secondTheft - 1 in
  tray1 <- store tray0 firstTheft false ;;
  tray2 <- (if -1 <? secondTheft
            then store tray1 secondTheft false
            else Returns tray1) ;;
  build_NDEBUG (MAX_SUM baseState) tray2 (negb (ourTurn baseState)).

(** The loops of [successors], with the constructor that they call as a
    parameter: [successors s] is [successorsWith (advance s) s]. *)
Definition successorsWith {X : Type} (construction : Z -> Z -> outcome X)
    (s : CrossoutState) : outcome (list X) :=
  forLoop (numbers s) (fun first => first <=? MAX_SUM s)
    (fun first possibilities =>
       if bit_at (tray s) (first - 1)
       then
         sole <- construction first NO_SECOND_THEFT ;;
         forLoop (numbers s) (fun second => first + second <=? MAX_SUM s)
           (fun second possibilities =>
              if bit_at (tray s) (second - 1)
              then joint <- construction first second ;;
                   Returns (possibilities ++ [joint])
              else Returns possibilities)
           (possibilities ++ [sole])
       else Returns possibilities)
    [].

(** [successors] in the build without assertions. *)
Definition successors_NDEBUG (s : CrossoutState) : outcome (list CrossoutState) :=
  successorsWith (advance_NDEBUG s) s.

(** [str]: the loop from [position] on.  It prints the position of the
    iterator, plus one, for every element of the tray, and reads none. *)
Fixpoint strNumbers (position : Z) (rest : list bool) : string :=
  match rest with
  | [] => ""
  | _ :: rest' => pretty (position + 1) +:+ " " +:+ strNumbers (position + 1) rest'
  end.

Definition str (s : CrossoutState) : string :=
  "It is the " +:+ (if ourTurn s then "computer" else "human")
  +:+ "'s turn and the pins are: " +:+ strNumbers 0 (tray s).

(** *** Vocabulary of the properties *)

(** Number [n] is one of the numbers 1..N of the game. *)
Definition onTray (s : CrossoutState) (n : Z) : Prop :=
  1 <= n <= Z.of_nat (length (tray s)).

(** Number [n] is still present. *)
Definition present (s : CrossoutState) (n : Z) : bool := bit_at (tray s) (n - 1).

(** The tray with number [n] crossed out. *)
Definition cross (n : Z) (t : list bool) : list bool := <[Z.to_nat (n - 1) := false]> t.

(** The cached hash is the one of the turn and the tray. *)
Definition hashCached (s : CrossoutState) : Prop :=
  hashCode s = hashValue (ourTurn s) (tray s).

(** The numbers a loop of [successors] reaches: those of the tray, up to the
    first that fails the loop's condition, that are present. *)
Definition reached (s : CrossoutState) (condition : Z -> bool) : list Z :=
  List.filter (present s) (whileHolds condition (numbers s)).

(** The calls of the advancing constructor that [successors] makes, in
    order, as pairs of [firstTheft] and [secondTheft], when none of them is
    stopped: for each [first] the outer loop reaches, the sole removal and
    one joint removal for each [second] the inner loop reaches. *)
Definition successorCalls (s : CrossoutState) : list (Z * Z) :=
  flat_map
    (fun first =>
       (first, NO_SECOND_THEFT)
       :: map (pair first) (reached s (fun second => first + second <=? MAX_SUM s)))
    (reached s (fun first => first <=? MAX_SUM s)).

(** The positions a program can hold: the opening position of a game and
    those that the advancing constructor returns from such a position. *)
Inductive constructed : CrossoutState -> Prop :=
| constructed_initial (greedyDivide highValue : Z) (weAreUp : bool) :
    constructed (initial greedyDivide highValue weAreUp)
| constructed_advance (baseState next : CrossoutState) (firstTheft secondTheft : Z) :
    constructed baseState ->
    advance baseState firstTheft secondTheft = Returns next ->
    constructed next.

(** How many numbers of a tray are crossed out. *)
Definition crossedOut (t : list bool) : Z := Z.of_nat (length (List.filter negb t)).

(** A descriptor returned by [diff], applied through the advancing
    constructor: one number is a sole removal, two are a joint one. *)
Definition replay (base : CrossoutState) (descriptor : list Z) : option (outcome CrossoutState) :=
  match descriptor with
  | [n] => Some (advance base n NO_SECOND_THEFT)
  | [n; m] => Some (advance base n m)
  | _ => None
  end.

(** The number whose binary digits, the least significant first, are the
    elements of a list. *)
Fixpoint binary (digits : list bool) : Z :=
  match digits with
  | [] => 0
  | digit :: digits' => Z.b2z digit + 2 * binary digits'
  end.

(** [next] is [first] after a move of the game: the sum bound kept, the
    turn flipped, and one present number within the sum bound crossed out,
    or two distinct present numbers whose sum is within the bound. *)
Definition legalMove (first next : CrossoutState) : Prop :=
  MAX_SUM next = MAX_SUM first
  /\ ourTurn next = negb (ourTurn first)
  /\ ((exists a,
          onTray first a /\ present first a = true /\ a <= MAX_SUM first
          /\ tray next = cross a (tray first))
      \/ (exists a b,
             onTray first a /\ onTray first b /\ a <> b
             /\ present first a = true /\ present first b = true
             /\ a + b <= MAX_SUM first
             /\ tray next = cross b (cross a (tray first)))).

(** The sum of the numbers of a descriptor. *)
Definition total (descriptor : list Z) : Z := foldr Z.add 0 descriptor.

(** The positions of a game: [playedFrom opening moves s] when the
    advancing constructor has led from [opening] to [s] in [moves] calls. *)
Inductive playedFrom (opening : CrossoutState) : nat -> CrossoutState -> Prop :=
| played_none : playedFrom opening 0 opening
| played_move (moves : nat) (s next : CrossoutState) (firstTheft secondTheft : Z) :
    playedFrom opening moves s ->
    advance s firstTheft secondTheft = Returns next ->
    playedFrom opening (S moves) next.

End Crossout.

(** ** Connect3State.h *)

Module Connect3.

Record Connect3State : Type := {
  COLUMNS : N;                 (* the major size *)
  ELEMENTS : N;                (* the minor size *)
  mySymbol : Z;                (* the index of my symbol in SYMBOLS *)
  board : list (list ascii);   (* column-major *)
  ourTurn : bool;
  finalOutcome : Score;        (* the victor of this particular round *)
  hashCode : Z
}.

Definition scoreGame (s : Connect3State) : Score := finalOutcome s.

Definition computersTurn (s : Connect3State) : bool := ourTurn s.

(** [column] is an [unsigned int]; [board[column]] is read past the end of
    [board] when the board has fewer than [COLUMNS] columns. *)
Definition hasSpaceAt (s : Connect3State) (column : N) : outcome bool :=
  assert (column <? COLUMNS s)%N column_in_range ;;;
  match board s !! N.to_nat column with
  | Some marks => Returns (N.of_nat (length marks) <? ELEMENTS s)%N
  | None => Undefined
  end.

Definition hash (s : Connect3State) : Z := hashCode s.

(** *** Vocabulary of the properties *)

(** An empty board of three columns of three elements, the computer to
    move.  The constructors are defined in Connect3State.cpp, which is not
    among the sources; the hash is of no concern to [hasSpaceAt]. *)
Definition emptyBoard : Connect3State :=
  {| COLUMNS := 3; ELEMENTS := 3; mySymbol := 0; board := [[]; []; []];
     ourTurn := true; finalOutcome := TIE; hashCode := 0 |}.

End Connect3.

(** * Properties *)

(** ** Outcomes, integers and vectors *)

Lemma int_lt_size_spec (i : Z) (size : nat) :
  int_lt_size i size = true <-> 0 <= i < Z.of_nat size.
Proof. unfold int_lt_size. rewrite andb_true_iff, Z.leb_le, Z.ltb_lt. tauto. Qed.

(** A negative [int] is below the size of no vector. *)
Lemma int_lt_size_negative (i : Z) (size : nat) : i < 0 -> int_lt_size i size = false.
Proof.
  intros Hi. destruct (int_lt_size i size) eqn:E; [|done].
  apply int_lt_size_spec in E. lia.
Qed.

Lemma bit_at_insert_eq (v : list bool) (i : Z) (x : bool) :
  0 <= i < Z.of_nat (length v) -> bit_at (<[Z.to_nat i := x]> v) i = x.
Proof.
  intros Hi. unfold bit_at. rewrite list_lookup_insert_eq; [done | lia].
Qed.

Lemma bit_at_insert_ne (v : list bool) (i j : Z) (x : bool) :
  0 <= i -> 0 <= j -> i <> j -> bit_at (<[Z.to_nat i := x]> v) j = bit_at v j.
Proof.
  intros Hi Hj Hij. unfold bit_at. rewrite list_lookup_insert_ne; [done | lia].
Qed.

Section StdEqual.

Context {A : Type} (same : A -> A -> bool).
Hypothesis same_spec : forall x y, same x y = true <-> x = y.

(** On ranges of one length [std_equal] reads nothing past the end and
    decides equality. *)
Lemma std_equal_same_length (l1 l2 : list A) :
  length l1 = length l2 ->
  exists b, std_equal same l1 l2 = Returns b /\ (b = true <-> l1 = l2).
Proof.
  revert l2. induction l1 as [|x l1 IH]; intros [|y l2] Hlen; simplify_eq/=.
  - by exists true.
  - destruct (same x y) eqn:E.
    + apply same_spec in E as ->. destruct (IH l2 Hlen) as (b & -> & Hb).
      exists b. split; [done|]. rewrite Hb. split; [by intros -> | by intros [=]].
    + exists false. split; [done|]. split; [done|].
      intros [= Hxy _]. apply same_spec in Hxy. congruence.
Qed.

(** What [std_equal] decides in general: that the first range is a prefix
    of the second. *)
Lemma std_equal_true (l1 l2 : list A) :
  std_equal same l1 l2 = Returns true <-> exists rest, l2 = l1 ++ rest.
Proof.
  revert l2. induction l1 as [|x l1 IH]; intros l2; simpl.
  - split; [intros _; by exists l2 | done].
  - destruct l2 as [|y l2]; [split; [done | intros [? [=]]]|].
    destruct (same x y) eqn:E.
    + apply same_spec in E as ->. rewrite IH.
      split; intros [rest Hr]; exists rest; [by rewrite Hr | by simplify_eq/=].
    + split; [done|]. intros [rest [= -> _]].
      by rewrite (proj2 (same_spec x x) eq_refl) in E.
Qed.

End StdEqual.

Lemma bool_eqb_spec (x y : bool) : Bool.eqb x y = true <-> x = y.
Proof. destruct x, y; simpl; intuition congruence. Qed.

Lemma Z_eqb_spec (x y : Z) : (x =? y) = true <-> x = y.
Proof. apply Z.eqb_eq. Qed.

(** ** Loops that gather results *)

Section Loops.

Context {B : Type}.

Lemma forEach_ext {A : Type} (f g : A -> outcome B) (l : list A) :
  (forall a, In a l -> f a = g a) -> forEach f l = forEach g l.
Proof.
  induction l as [|a l IH]; intros Hfg; simpl; [done|].
  rewrite (Hfg a) by (by left). rewrite IH; [done|]. intros a' Ha'. apply Hfg. by right.
Qed.

Lemma forEach_app {A : Type} (f : A -> outcome B) (l1 l2 : list A) :
  forEach f (l1 ++ l2)
  = (bs1 <- forEach f l1 ;; bs2 <- forEach f l2 ;; Returns (bs1 ++ bs2)).
Proof.
  induction l1 as [|a l1 IH]; simpl.
  - by destruct (forEach f l2).
  - destruct (f a); simpl; [|done..]. rewrite IH.
    destruct (forEach f l1); simpl; [|done..]. by destruct (forEach f l2).
Qed.

Lemma forEach_map {A A' : Type} (f : A' -> outcome B) (g : A -> A') (l : list A) :
  forEach f (map g l) = forEach (fun a => f (g a)) l.
Proof. induction l as [|a l IH]; simpl; [done|]. by rewrite IH. Qed.

(** A list of calls that is made of one batch per element. *)
Lemma forEach_flat_map {A A' : Type} (f : A' -> outcome B) (g : A -> list A') (l : list A) :
  forEach f (flat_map g l)
  = (bss <- forEach (fun a => forEach f (g a)) l ;; Returns (concat bss)).
Proof.
  induction l as [|a l IH]; simpl; [done|].
  rewrite forEach_app, IH. destruct (forEach f (g a)); simpl; [|done..].
  by destruct (forEach (fun a => forEach f (g a)) l).
Qed.

Lemma forEach_singletons {A : Type} (f : A -> outcome B) (l : list A) :
  (bss <- forEach (fun a => b <- f a ;; Returns [b]) l ;; Returns (concat bss))
  = forEach f l.
Proof.
  induction l as [|a l IH]; simpl; [done|].
  destruct (f a); simpl; [|done..]. rewrite <- IH.
  by destruct (forEach (fun a => b <- f a ;; Returns [b]) l).
Qed.

(** Every result of [forEach] is returned by one of its calls. *)
Lemma forEach_Returns_In {A : Type} (f : A -> outcome B) (l : list A) (bs : list B) (b : B) :
  forEach f l = Returns bs -> In b bs -> exists a, In a l /\ f a = Returns b.
Proof.
  revert bs. induction l as [|a l IH]; intros bs; simpl.
  - by intros [= <-] [].
  - destruct (f a) as [b'| |] eqn:Hfa; simpl; [|done..].
    destruct (forEach f l) as [bs'| |]; simpl; [|done..].
    intros [= <-] [<-|Hin]; [by exists a; split; [left|] |].
    destruct (IH bs' eq_refl Hin) as (a' & Ha' & Hfa'). exists a'. by split; [right|].
Qed.


(** A loop whose body, for the counters it selects, appends what some calls
    return, gathers the results of those calls. *)
Lemma forLoop_gathers (counters : list Z) (condition select : Z -> bool)
    (calls : Z -> outcome (list B)) (body : Z -> list B -> outcome (list B))
    (gathered : list B) :
  (forall i acc, body i acc
                 = if select i then bs <- calls i ;; Returns (acc ++ bs) else Returns acc) ->
  forLoop counters condition body gathered
  = (bss <- forEach calls (List.filter select (whileHolds condition counters)) ;;
     Returns (gathered ++ concat bss)).
Proof.
  intros Hbody. revert gathered.
  induction counters as [|i counters IH]; intros gathered; simpl.
  - by rewrite app_nil_r.
  - destruct (condition i); simpl; [|by rewrite app_nil_r].
    rewrite Hbody. destruct (select i); simpl; [|apply IH].
    destruct (calls i) as [bs| |]; simpl; [|done..]. rewrite IH.
    destruct (forEach calls _); simpl; [|done..]. by rewrite app_assoc.
Qed.

End Loops.

(** ** The hash of CrossoutState *)

Section CacheHash.

Import Crossout.

Lemma int_wrap_in_range (z : Z) : - 2 ^ 31 <= z < 2 ^ 31 -> int_wrap z = z.
Proof. intros Hz. unfold int_wrap. rewrite Z.mod_small; lia. Qed.

Lemma hashBits_in_range (size : Z) (rest : list bool) (count hashCode : Z) :
  0 <= count -> count + Z.of_nat (length rest) = size -> size <= 30 ->
  0 <= hashCode <= 2 ^ size + 2 ^ count - 1 ->
  0 <= hashBits count rest hashCode <= 2 ^ size + 2 ^ size - 1.
Proof.
  revert count hashCode.
  induction rest as [|present rest IH]; intros count hashCode Hc Hsize H30 Hh; simpl in *.
  - assert (size = count) as -> by lia. lia.
  - assert (2 ^ size <= 2 ^ 30) by (apply Z.pow_le_mono_r; lia).
    assert (2 ^ (count + 1) <= 2 ^ size) by (apply Z.pow_le_mono_r; lia).
    assert (2 ^ (count + 1) = 2 * 2 ^ count) by (rewrite Z.pow_add_r; lia).
    assert (0 < 2 ^ count) by (apply Z.pow_pos_nonneg; lia).
    assert (int_shl (Z.b2z present) count = Z.b2z present * 2 ^ count) as ->.
    { unfold int_shl. rewrite Z.shiftl_mul_pow2 by lia.
      apply int_wrap_in_range. destruct present; simpl; lia. }
    rewrite int_wrap_in_range by (destruct present; simpl; lia).
    apply IH; [lia | lia | lia |]. destruct present; simpl; lia.
Qed.

(** On a tray of at most 30 numbers no operation of [cacheHash] leaves the
    range of [int], and the hash is not negative. *)
Lemma hashValue_in_range (turn : bool) (t : list bool) :
  (length t <= 30)%nat -> 0 <= hashValue turn t < 2 ^ 31.
Proof.
  intros Hlen. unfold hashValue.
  assert (2 ^ Z.of_nat (length t) <= 2 ^ 30) by (apply Z.pow_le_mono_r; lia).
  assert (0 < 2 ^ Z.of_nat (length t)) by (apply Z.pow_pos_nonneg; lia).
  assert (int_shl (Z.b2z turn) (Z.of_nat (length t))
          = Z.b2z turn * 2 ^ Z.of_nat (length t)) as ->.
  { unfold int_shl. rewrite Z.shiftl_mul_pow2 by lia.
    apply int_wrap_in_range. destruct turn; simpl; lia. }
  pose proof (hashBits_in_range (Z.of_nat (length t)) t 0
                (Z.b2z turn * 2 ^ Z.of_nat (length t))) as Hb.
  destruct Hb as [Hlo Hhi]; [lia | lia | lia | destruct turn; simpl; lia |].
  rewrite Z.abs_eq by done. rewrite int_wrap_in_range; lia.
Qed.

(** So there the closing assertion of [cacheHash] holds. *)
Lemma cacheHash_Returns (turn : bool) (t : list bool) :
  (length t <= 30)%nat -> cacheHash turn t = Returns (hashValue turn t).
Proof.
  intros Hlen. unfold cacheHash.
  destruct (Z.leb_spec 32 (Z.of_nat (length t))) as [|_]; [lia|].
  pose proof (hashValue_in_range turn t Hlen) as [Hlo _].
  apply Z.leb_le in Hlo. by rewrite Hlo.
Qed.

(** Whatever the tray, a hash that [cacheHash] returns is [hashValue]. *)
Lemma cacheHash_value (turn : bool) (t : list bool) (h : Z) :
  cacheHash turn t = Returns h -> h = hashValue turn t.
Proof.
  unfold cacheHash. destruct (32 <=? Z.of_nat (length t)); [done|].
  simpl. destruct (0 <=? hashValue turn t); simpl; congruence.
Qed.

Lemma build_small (m : Z) (t : list bool) (turn : bool) :
  (length t <= 30)%nat -> build m t turn = Returns (construct m t turn).
Proof. intros Hlen. unfold build. by rewrite cacheHash_Returns. Qed.

Lemma build_Returns (m : Z) (t : list bool) (turn : bool) (s : CrossoutState) :
  build m t turn = Returns s -> s = construct m t turn.
Proof.
  unfold build. destruct (cacheHash turn t) as [h| |] eqn:Hh; simpl; [|done..].
  apply cacheHash_value in Hh as ->. by intros [= <-].
Qed.



Lemma build_NDEBUG_Returns (m : Z) (t : list bool) (turn : bool) (s : CrossoutState) :
  build_NDEBUG m t turn = Returns s -> s = construct m t turn.
Proof.
  unfold build_NDEBUG, cacheHash_NDEBUG.
  destruct (32 <=? Z.of_nat (length t)); simpl; [done|].
  destruct (hashValue turn t <? 0); simpl; [done|]. by intros [= <-].
Qed.

(** The constructor of a game of at most 30 numbers returns [initial]. *)
Lemma game_initial (greedyDivide highValue : Z) (weAreUp : bool) :
  highValue <= 30 ->
  game greedyDivide highValue weAreUp = Returns (initial greedyDivide highValue weAreUp).
Proof.
  intros Hhigh. unfold game, initial. apply build_small.
  rewrite length_replicate. lia.
Qed.

(** On a tray of 31 numbers, all crossed out, with the computer to move,
    [1<<31] and [abs] overflow, the hash is the least [int] and the
    assertion of [cacheHash] fails. *)
Remark cacheHash_overflow :
  cacheHash true (replicate 31 false) = Aborts hash_not_negative.
Proof. reflexivity. Qed.

End CacheHash.

(** ** The advancing constructor of CrossoutState *)

Section Advance.

Import Crossout.

Variable base : CrossoutState.

Local Ltac passes := rewrite ?andb_true_iff, ?int_lt_size_spec, ?Z.leb_le; lia.

(** Two distinct numbers that are present are taken, whatever their sum. *)
Lemma advance_joint (a b : Z) :
  onTray base a -> onTray base b -> a <> b ->
  present base a = true -> present base b = true ->
  advance base a b
  = build (MAX_SUM base) (cross b (cross a (tray base))) (negb (ourTurn base)).
Proof.
  unfold onTray, present, advance, cross. intros Ha Hb Hab Pa Pb.
  replace ((0 <=? a - 1) && int_lt_size (a - 1) (length (tray base))) with true
    by (symmetry; passes).
  replace (int_lt_size (b - 1) (length (tray base))) with true by (symmetry; passes).
  rewrite Pa. simpl.
  replace (-1 <? b - 1) with true by (symmetry; apply Z.ltb_lt; lia).
  rewrite bit_at_insert_ne, Pb by lia. done.
Qed.

(** A number that is absent stops the constructor. *)
Lemma advance_first_absent (a b : Z) :
  onTray base a -> onTray base b -> present base a = false ->
  advance base a b = Aborts first_theft_present.
Proof.
  unfold onTray, present, advance. intros Ha Hb Pa.
  replace ((0 <=? a - 1) && int_lt_size (a - 1) (length (tray base))) with true
    by (symmetry; passes).
  replace (int_lt_size (b - 1) (length (tray base))) with true by (symmetry; passes).
  by rewrite Pa.
Qed.

Lemma advance_second_absent (a b : Z) :
  onTray base a -> onTray base b -> present base a = true ->
  a = b \/ present base b = false ->
  advance base a b = Aborts second_theft_present.
Proof.
  unfold onTray, present, advance. intros Ha Hb Pa Pb.
  replace ((0 <=? a - 1) && int_lt_size (a - 1) (length (tray base))) with true
    by (symmetry; passes).
  replace (int_lt_size (b - 1) (length (tray base))) with true by (symmetry; passes).
  rewrite Pa. simpl.
  replace (-1 <? b - 1) with true by (symmetry; apply Z.ltb_lt; lia).
  destruct (decide (a = b)) as [<-|Hab].
  - rewrite bit_at_insert_eq by lia. done.
  - destruct Pb as [|Pb]; [done|]. rewrite bit_at_insert_ne, Pb by lia. done.
Qed.

(** Without a second number the constructor stops at its second range
    assertion: [secondTheft-1] is negative, whatever non-positive value
    stands for "no second number". *)
Lemma advance_sole (a none : Z) :
  onTray base a -> none <= 0 ->
  advance base a none = Aborts second_theft_in_range.
Proof.
  unfold onTray, advance. intros Ha Hnone.
  replace ((0 <=? a - 1) && int_lt_size (a - 1) (length (tray base))) with true
    by (symmetry; passes).
  by rewrite int_lt_size_negative by lia.
Qed.

End Advance.

Section AdvanceContract.

Import Crossout.

Lemma present_cross (t : list bool) (n m : Z) :
  1 <= n <= Z.of_nat (length t) -> 1 <= m ->
  bit_at (cross m t) (n - 1) = bit_at t (n - 1) && negb (n =? m).
Proof.
  intros Hn Hm. unfold cross. destruct (Z.eqb_spec n m) as [->|Hne].
  - rewrite bit_at_insert_eq by lia. by rewrite andb_false_r.
  - rewrite bit_at_insert_ne by lia. by rewrite andb_true_r.
Qed.

Lemma length_cross (t : list bool) (n : Z) : length (cross n t) = length t.
Proof. apply length_insert. Qed.

(** What the advancing constructor has checked when it returns. *)
Lemma advance_Returns (base next : CrossoutState) (a b : Z) :
  advance base a b = Returns next ->
  onTray base a /\ onTray base b /\ a <> b
  /\ present base a = true /\ present base b = true
  /\ next = construct (MAX_SUM base) (cross b (cross a (tray base))) (negb (ourTurn base)).
Proof.
  unfold advance, onTray, present, cross. intros H.
  destruct ((0 <=? a - 1) && int_lt_size (a - 1) _) eqn:Ea; simpl in H; [|done].
  destruct (int_lt_size (b - 1) _) eqn:Eb; simpl in H; [|done].
  destruct (bit_at (tray base) (a - 1)) eqn:Pa; simpl in H; [|done].
  apply andb_true_iff in Ea as [_ Ea].
  apply int_lt_size_spec in Ea. apply int_lt_size_spec in Eb.
  replace (-1 <? b - 1) with true in H by (symmetry; apply Z.ltb_lt; lia).
  destruct (bit_at (<[_ := false]> (tray base)) (b - 1)) eqn:Pb; simpl in H; [|done].
  apply build_Returns in H as ->.
  assert (a <> b) as Hab by (intros ->; by rewrite bit_at_insert_eq in Pb by lia).
  rewrite bit_at_insert_ne in Pb by lia.
  split_and!; (done || lia).
Qed.





End AdvanceContract.

(** ** The end of a game of Crossout *)

Section GameOver.

Import Crossout.

Lemma gameOverFrom_spec (rest : list bool) (location : Z) :
  gameOverFrom location rest = true
  <-> forall k : nat, location + Z.of_nat k < MAX_TAKEN -> rest !! k <> Some true.
Proof.
  revert location. induction rest as [|present rest IH]; intros location; simpl.
  - split; [intros _ k _ | done]. by rewrite lookup_nil.
  - destruct (Z.ltb_spec location MAX_TAKEN) as [Hlt|Hge].
    + destruct present.
      * split; [done|]. intros H. exfalso. apply (H 0%nat); [lia | done].
      * rewrite IH. split; intros H k Hk.
        -- destruct k as [|k]; [done|]. simpl. apply H. lia.
        -- apply (H (S k)). lia.
    + split; [|done]. intros _ k Hk. lia.
Qed.

(** What [gameOver] decides: that none of the numbers 1..MAX_TAKEN is
    present.  The numbers above [MAX_TAKEN] are not looked at. *)
Lemma gameOver_spec (s : CrossoutState) :
  gameOver s = true
  <-> forall n, 1 <= n <= MAX_TAKEN -> onTray s n -> present s n = false.
Proof.
  unfold gameOver, present, onTray, bit_at. rewrite gameOverFrom_spec. split.
  - intros H n Hn Hon. specialize (H (Z.to_nat (n - 1))).
    destruct (tray s !! Z.to_nat (n - 1)) as [[]|]; simpl; try done.
    exfalso. apply H; [lia | done].
  - intros H k Hk Hlook. specialize (H (Z.of_nat k + 1)).
    apply lookup_lt_Some in Hlook as Hlen.
    replace (Z.to_nat (Z.of_nat k + 1 - 1)) with k in H by lia.
    rewrite Hlook in H. simpl in H. by apply (eq_true_false_abs true); [|apply H; lia].
Qed.

(** C2, at the position reached from the numbers 1..3 with sum bound 3 by
    crossing out 1 and 2: [gameOver] answers [true] although number 3 is
    present and within the bound, and crossing it out is a move by
    [areSubsequent]. *)
Theorem gameOver_overlooks_high_numbers :
  exists P,
    advance (initial 3 3 true) 1 2 = Returns P
    /\ tray P = [false; false; true]
    /\ gameOver P = true
    /\ present P 3 = true
    /\ 3 <= MAX_SUM P
    /\ areSubsequent P (construct 3 [false; false; false] true) = true.
Proof. eexists. split; [reflexivity|]. simpl. repeat split. lia. Qed.

(** C8: the player who is left without a move has lost.  In a position
    that is over the score is LOSS on the computer's turn and VICTORY on
    the opponent's; in a position that is not over it is TIE.  For Kayles
    this holds whatever [gameOver] of KaylesState.cpp computes. *)
Theorem scoreGame_normal_play
    (kaylesGameOver : Kayles.KaylesState -> bool)
    (k : Kayles.KaylesState) (c : CrossoutState) :
  (kaylesGameOver k = true -> Kayles.ourTurn k = true ->
   Kayles.scoreGame kaylesGameOver k = LOSS)
  /\ (kaylesGameOver k = true -> Kayles.ourTurn k = false ->
      Kayles.scoreGame kaylesGameOver k = VICTORY)
  /\ (kaylesGameOver k = false -> Kayles.scoreGame kaylesGameOver k = TIE)
  /\ (gameOver c = true -> ourTurn c = true -> scoreGame c = LOSS)
  /\ (gameOver c = true -> ourTurn c = false -> scoreGame c = VICTORY)
  /\ (gameOver c = false -> scoreGame c = TIE).
Proof.
  unfold Kayles.scoreGame, scoreGame.
  repeat split; intros; repeat match goal with H : _ = _ |- _ => rewrite H end; done.
Qed.

(** A game of Kayles that is over when no group of pins is left, after
    the computer's move and after the opponent's, and the positions of
    Crossout before and after the numbers 1 and 2 are crossed out. *)
Lemma scoreGame_normal_play_witness :
  let noGroupLeft := fun k => match Kayles.pins k with [] => true | _ :: _ => false end in
  Kayles.scoreGame noGroupLeft
    {| Kayles.pins := []; Kayles.ourTurn := false; Kayles.hashCode := 0 |} = VICTORY
  /\ Kayles.scoreGame noGroupLeft
       {| Kayles.pins := []; Kayles.ourTurn := true; Kayles.hashCode := 0 |} = LOSS
  /\ scoreGame (construct 3 [false; false] false) = VICTORY
  /\ scoreGame (initial 3 2 true) = TIE.
Proof.
  intros noGroupLeft. split_and!.
  - apply (scoreGame_normal_play noGroupLeft
             {| Kayles.pins := []; Kayles.ourTurn := false; Kayles.hashCode := 0 |}
             (initial 3 2 true)); reflexivity.
  - apply (scoreGame_normal_play noGroupLeft
             {| Kayles.pins := []; Kayles.ourTurn := true; Kayles.hashCode := 0 |}
             (initial 3 2 true)); reflexivity.
  - apply (scoreGame_normal_play noGroupLeft
             {| Kayles.pins := []; Kayles.ourTurn := true; Kayles.hashCode := 0 |}
             (construct 3 [false; false] false)); reflexivity.
  - apply (scoreGame_normal_play noGroupLeft
             {| Kayles.pins := []; Kayles.ourTurn := true; Kayles.hashCode := 0 |}
             (initial 3 2 true)); reflexivity.
Defined.

End GameOver.

(** ** Equality and hashing *)

Section Equality.

Import Crossout.

(** [KaylesState::operator==] never reads past the end of a vector and
    holds exactly of two positions with the same turn and the same pin
    counts, group by group; the cached hash is not looked at. *)
Lemma Kayles_equals_spec (this another : Kayles.KaylesState) :
  exists same,
    Kayles.equals this another = Returns same
    /\ (same = true <->
        Kayles.ourTurn this = Kayles.ourTurn another
        /\ Kayles.pins this = Kayles.pins another).
Proof.
  unfold Kayles.equals.
  destruct (Bool.eqb _ _) eqn:Hturn.
  - apply (proj1 (bool_eqb_spec _ _)) in Hturn.
    destruct (Nat.eqb_spec (length (Kayles.pins this)) (length (Kayles.pins another)))
      as [Hlen|Hlen].
    + destruct (std_equal_same_length Z.eqb Z_eqb_spec _ _ Hlen) as (same & -> & Hsame).
      exists same. split; [done|]. rewrite Hsame. tauto.
    + exists false. split; [done|]. split; [done|]. intros [_ Hpins]. congruence.
  - exists false. split; [done|]. split; [done|]. intros [Hturn' _].
    apply (proj2 (bool_eqb_spec _ _)) in Hturn'. congruence.
Qed.

(** What [CrossoutState::operator==] holds of: the same sum bound, the
    same turn, and a tray that begins with the tray of [this]. *)
Lemma equals_true (this another : CrossoutState) :
  equals this another = Returns true
  <-> MAX_SUM this = MAX_SUM another
      /\ (exists rest, tray another = tray this ++ rest)
      /\ ourTurn this = ourTurn another.
Proof.
  unfold equals. destruct (Z.eqb_spec (MAX_SUM this) (MAX_SUM another)) as [Hsum|Hsum].
  - rewrite <- (std_equal_true Bool.eqb bool_eqb_spec), <- bool_eqb_spec.
    destruct (std_equal Bool.eqb (tray this) (tray another)) as [[]| |]; simpl;
      [| | |]; (split; [try done; intros [= ->]; done | intros (_ & H1 & H2); congruence]).
  - split; [done | tauto].
Qed.

(** Between trays of one size it is equality of the sum bound, the tray
    and the turn. *)
Lemma equals_same_size (this another : CrossoutState) :
  length (tray this) = length (tray another) ->
  exists same,
    equals this another = Returns same
    /\ (same = true <->
        MAX_SUM this = MAX_SUM another
        /\ tray this = tray another
        /\ ourTurn this = ourTurn another).
Proof.
  intros Hlen. unfold equals.
  destruct (Z.eqb_spec (MAX_SUM this) (MAX_SUM another)) as [Hsum|Hsum].
  - destruct (std_equal_same_length Bool.eqb bool_eqb_spec _ _ Hlen) as (same & -> & Hsame).
    simpl. eexists. split; [done|].
    rewrite andb_true_iff, Hsame, bool_eqb_spec. tauto.
  - exists false. split; [done|]. split; [done | tauto].
Qed.

(** The constructors cache the hash of the turn and the tray. *)
Lemma hashCached_construct (bound : Z) (t : list bool) (turn : bool) :
  hashCached (construct bound t turn).
Proof. done. Qed.

Lemma hashCached_advance (base next : CrossoutState) (a b : Z) :
  advance base a b = Returns next -> hashCached next.
Proof.
  intros H. apply advance_Returns in H as (_ & _ & _ & _ & _ & ->).
  apply hashCached_construct.
Qed.

(** Equal positions of one size have one hash. *)
Lemma equals_hash_same_size (this another : CrossoutState) :
  hashCached this -> hashCached another ->
  length (tray this) = length (tray another) ->
  equals this another = Returns true -> hash this = hash another.
Proof.
  intros Hthis Hanother Hlen Heq.
  destruct (equals_same_size this another Hlen) as (same & Hsame & Hspec).
  rewrite Heq in Hsame. injection Hsame as <-.
  destruct Hspec as [(_ & Htray & Hturn) _]; [done|].
  unfold hash. by rewrite Hthis, Hanother, Htray, Hturn.
Qed.

(** C5, at the opening positions of the games on the numbers 1..1 and 1..2
    with sum bound 3, the computer to move: [operator==] holds of them and
    their hashes are 3 and 7. *)
Theorem equal_positions_with_different_hashes :
  equals (initial 3 1 true) (initial 3 2 true) = Returns true
  /\ hash (initial 3 1 true) = 3
  /\ hash (initial 3 2 true) = 7.
Proof. done. Qed.

(** C6, at the same two positions: [operator==] holds of them although
    their trays differ, the second having a number more. *)
Theorem equal_positions_with_different_trays :
  equals (initial 3 1 true) (initial 3 2 true) = Returns true
  /\ tray (initial 3 1 true) = [true]
  /\ tray (initial 3 2 true) = [true; true]
  /\ tray (initial 3 1 true) <> tray (initial 3 2 true).
Proof. done. Qed.

End Equality.

(** ** Queries at an index out of range *)

Section OutOfRange.

Import Connect3.

(** C9 as stated, at column 3 of a board of three columns: [hasSpaceAt]
    is stopped by its assertion and returns nothing. *)
Lemma hasSpaceAt_aborts_out_of_range :
  (COLUMNS emptyBoard <= 3)%N
  /\ hasSpaceAt emptyBoard 3 = Aborts column_in_range
  /\ ~ exists answer, hasSpaceAt emptyBoard 3 = Returns answer.
Proof. split; [done|]. split; [done|]. by intros [answer H]. Qed.

(** C9 as amended: at a group that does not exist [pinsInGroup] returns
    -1; at a column that does not exist [hasSpaceAt] is stopped by its
    assertion. *)
Theorem queries_out_of_range
    (k : Kayles.KaylesState) (group : N) (s : Connect3State) (column : N) :
  ((N.of_nat (length (Kayles.pins k)) <= group)%N -> Kayles.pinsInGroup k group = -1)
  /\ ((COLUMNS s <= column)%N -> hasSpaceAt s column = Aborts column_in_range).
Proof.
  split; intros H.
  - unfold Kayles.pinsInGroup. by rewrite (proj2 (N.leb_le _ _) H).
  - unfold hasSpaceAt. by rewrite (proj2 (N.ltb_ge _ _) H).
Qed.

(** Group 2 of two groups of pins, and column 3 of three columns. *)
Lemma queries_out_of_range_witness :
  Kayles.pinsInGroup {| Kayles.pins := [3; 1]; Kayles.ourTurn := true; Kayles.hashCode := 0 |} 2 = -1
  /\ hasSpaceAt emptyBoard 3 = Aborts column_in_range.
Proof.
  split.
  - apply (queries_out_of_range
             {| Kayles.pins := [3; 1]; Kayles.ourTurn := true; Kayles.hashCode := 0 |} 2
             emptyBoard 3). done.
  - apply (queries_out_of_range
             {| Kayles.pins := [3; 1]; Kayles.ourTurn := true; Kayles.hashCode := 0 |} 2
             emptyBoard 3). done.
Defined.

End OutOfRange.

(** ** The successors of a position of Crossout *)

Section Successors.

Import Crossout.

Variable s : CrossoutState.

(** The inner loop of [successors] for one [first], whatever constructor
    it calls. *)
Lemma successorsWith_inner_loop {X : Type} (construction : Z -> Z -> outcome X)
    (first : Z) (possibilities : list X) :
  forLoop (numbers s) (fun second => first + second <=? MAX_SUM s)
    (fun second possibilities =>
       if bit_at (tray s) (second - 1)
       then joint <- construction first second ;; Returns (possibilities ++ [joint])
       else Returns possibilities)
    possibilities
  = (joints <- forEach (construction first)
                 (reached s (fun second => first + second <=? MAX_SUM s)) ;;
     Returns (possibilities ++ joints)).
Proof.
  rewrite (forLoop_gathers _ _ (present s)
             (fun second => joint <- construction first second ;; Returns [joint])).
  - rewrite <- (forEach_singletons (construction first)). unfold reached.
    by destruct (forEach _ _) as [joints| |].
  - intros second acc. unfold present. destruct (bit_at _ _); [|done].
    by destruct (construction first second).
Qed.

(** The loops of [successors] return what the calls of [successorCalls]
    return, in their order, and are stopped by the first of them that is
    stopped, whatever constructor they call. *)
Lemma successorsWith_forEach {X : Type} (construction : Z -> Z -> outcome X) :
  successorsWith construction s
  = forEach (fun call => construction call.1 call.2) (successorCalls s).
Proof.
  unfold successorsWith, successorCalls.
  rewrite (forLoop_gathers _ _ (present s)
             (fun first =>
                forEach (fun call => construction call.1 call.2)
                  ((first, NO_SECOND_THEFT)
                   :: map (pair first)
                        (reached s (fun second => first + second <=? MAX_SUM s))))).
  - by rewrite forEach_flat_map.
  - intros first acc. unfold present. destruct (bit_at _ _); [|done].
    simpl. destruct (construction first NO_SECOND_THEFT) as [sole| |]; simpl; [|done..].
    rewrite successorsWith_inner_loop, forEach_map. simpl.
    destruct (forEach _ _) as [joints| |]; simpl; [|done..].
    by rewrite <- app_assoc.
Qed.

Lemma successors_forEach :
  successors s = forEach (fun call => advance s call.1 call.2) (successorCalls s).
Proof. apply (successorsWith_forEach (advance s)). Qed.

Lemma successors_NDEBUG_forEach :
  successors_NDEBUG s
  = forEach (fun call => advance_NDEBUG s call.1 call.2) (successorCalls s).
Proof. apply (successorsWith_forEach (advance_NDEBUG s)). Qed.

Lemma In_countingFrom (from : Z) (count : nat) (i : Z) :
  In i (countingFrom from count) <-> from <= i < from + Z.of_nat count.
Proof.
  unfold countingFrom. rewrite in_map_iff. split.
  - intros (k & <- & Hk). apply in_seq in Hk. lia.
  - intros Hi. exists (Z.to_nat (i - from)). split; [lia|]. apply in_seq. lia.
Qed.

Lemma In_whileHolds (condition : Z -> bool) (counters : list Z) (i : Z) :
  In i (whileHolds condition counters) -> In i counters /\ condition i = true.
Proof.
  induction counters as [|j counters IH]; simpl; [done|].
  destruct (condition j) eqn:Hj; [|done].
  intros [<-|Hi]; [by split; [left|] |]. destruct (IH Hi). by split; [right|].
Qed.

(** A number that a loop reaches is on the tray, present, and satisfies the
    loop's condition. *)
Lemma In_reached (condition : Z -> bool) (n : Z) :
  In n (reached s condition) -> onTray s n /\ present s n = true /\ condition n = true.
Proof.
  unfold reached. rewrite filter_In. intros [Hn Hp].
  apply In_whileHolds in Hn as [Hn Hc]. apply In_countingFrom in Hn.
  unfold onTray. split; [lia | done].
Qed.

(** The calls that [successors] makes take a first number that is present
    and within the bound and, with it, either no second number or one that
    is present and keeps the sum within the bound. *)
Lemma In_successorCalls (first second : Z) :
  In (first, second) (successorCalls s) ->
  onTray s first /\ present s first = true /\ first <= MAX_SUM s
  /\ (second = NO_SECOND_THEFT
      \/ onTray s second /\ present s second = true /\ first + second <= MAX_SUM s).
Proof.
  unfold successorCalls. rewrite in_flat_map. intros (first' & Hfirst & Hcall).
  apply In_reached in Hfirst as (Hon & Hp & Hc). apply Z.leb_le in Hc.
  destruct Hcall as [[= <- <-]|Hcall]; [by split_and!; [..|left] |].
  apply in_map_iff in Hcall as (second' & [= <- <-] & Hsecond).
  apply In_reached in Hsecond as (Hon2 & Hp2 & Hc2). apply Z.leb_le in Hc2.
  by split_and!; [..|right].
Qed.

Lemma countingFrom_S (from : Z) (count : nat) :
  countingFrom from (S count) = from :: countingFrom (from + 1) count.
Proof.
  unfold countingFrom. simpl. f_equal; [lia|].
  rewrite <- seq_shift, map_map. apply map_ext. intros k. lia.
Qed.

(** Under a condition that, once it fails, fails for every greater counter,
    the loop runs for every counter that satisfies it. *)
Lemma In_whileHolds_countingFrom (condition : Z -> bool) (from : Z) (count : nat) (i : Z) :
  (forall j k, j <= k -> condition k = true -> condition j = true) ->
  In i (whileHolds condition (countingFrom from count))
  <-> from <= i < from + Z.of_nat count /\ condition i = true.
Proof.
  intros Hdown. revert from. induction count as [|count IH]; intros from.
  - simpl. split; [done | lia].
  - rewrite countingFrom_S. simpl. destruct (condition from) eqn:Hfrom; simpl.
    + rewrite IH. split.
      * intros [<-|[Hi Hc]]; (split; [lia | done]).
      * intros [Hi Hc]. destruct (decide (from = i)); [by left | right].
        split; [lia | done].
    + split; [done|]. intros [Hi Hc].
      rewrite (Hdown from i) in Hfrom; [done | lia | done].
Qed.

Lemma In_reached_iff (condition : Z -> bool) (n : Z) :
  (forall j k, j <= k -> condition k = true -> condition j = true) ->
  In n (reached s condition)
  <-> onTray s n /\ present s n = true /\ condition n = true.
Proof.
  intros Hdown. unfold reached, numbers, onTray.
  rewrite filter_In, In_whileHolds_countingFrom by done. split.
  - intros [[Hn Hc] Hp]. split; [lia | done].
  - intros (Hn & Hp & Hc). split; [split; [lia | done] | done].
Qed.

(** The calls that [successors] makes are all of these: every number that
    is present and within the bound is taken alone and with every number
    that is present and keeps the sum within the bound. *)
Lemma In_successorCalls_iff (first second : Z) :
  In (first, second) (successorCalls s)
  <-> onTray s first /\ present s first = true /\ first <= MAX_SUM s
      /\ (second = NO_SECOND_THEFT
          \/ onTray s second /\ present s second = true /\ first + second <= MAX_SUM s).
Proof.
  split; [apply In_successorCalls|].
  intros (Hon & Hp & Hc & Hsecond). unfold successorCalls. apply in_flat_map.
  exists first. split.
  - apply In_reached_iff; [|by rewrite Z.leb_le].
    intros j k Hjk. rewrite !Z.leb_le. lia.
  - destruct Hsecond as [->|(Hon2 & Hp2 & Hc2)]; [by left | right].
    apply in_map. apply In_reached_iff; [|by rewrite Z.leb_le].
    intros j k Hjk. rewrite !Z.leb_le. lia.
Qed.

(** A pair that [successors] takes, it takes in both orders. *)
Lemma successorCalls_both_orders (first second : Z) :
  In (first, second) (successorCalls s) -> second <> NO_SECOND_THEFT ->
  In (second, first) (successorCalls s).
Proof.
  rewrite !In_successorCalls_iff.
  intros (Hon & Hp & Hc & [->|(Hon2 & Hp2 & Hc2)]) Hsecond; [done|].
  split; [done|]. split; [done|]. split; [unfold onTray in *; lia|].
  right. split; [done|]. split; [done|]. lia.
Qed.

(** A number whose double is within the bound, [successors] takes together
    with itself. *)
Lemma successorCalls_same_number (first : Z) :
  In (first, NO_SECOND_THEFT) (successorCalls s) -> first + first <= MAX_SUM s ->
  In (first, first) (successorCalls s).
Proof.
  rewrite !In_successorCalls_iff. intros (Hon & Hp & Hc & _) Hdouble.
  split; [done|]. split; [done|]. split; [done|]. by right.
Qed.

End Successors.

(** ** Positions that follow one another *)

Section Subsequent.

Import Crossout.

Lemma crossings_none (t : list bool) (num count sum : Z) :
  crossings num t t count sum = Some (count, sum).
Proof.
  revert num. induction t as [|x t IH]; intros num; simpl; [done|].
  by destruct x; simpl; rewrite IH.
Qed.

Lemma crossings_one (t : list bool) (i : nat) (num count sum : Z) :
  t !! i = Some true ->
  crossings num t (<[i := false]> t) count sum
  = Some (count + 1, sum + (num + Z.of_nat i + 1)).
Proof.
  revert i num count sum. induction t as [|x t IH]; intros i num count sum Hi; [done|].
  destruct i as [|i]; simpl in *.
  - injection Hi as ->. simpl. rewrite crossings_none. do 2 f_equal; lia.
  - destruct x; simpl; rewrite IH by done; do 2 f_equal; lia.
Qed.

Lemma crossings_two (t : list bool) (i j : nat) (num count sum : Z) :
  i <> j -> t !! i = Some true -> t !! j = Some true ->
  crossings num t (<[j := false]> (<[i := false]> t)) count sum
  = Some (count + 2, sum + (num + Z.of_nat i + 1) + (num + Z.of_nat j + 1)).
Proof.
  revert i j num count sum.
  induction t as [|x t IH]; intros i j num count sum Hij Hi Hj; [done|].
  destruct i as [|i], j as [|j]; simpl in *; [done|..].
  - injection Hi as ->. simpl. rewrite crossings_one by done. do 2 f_equal; lia.
  - injection Hj as ->. simpl. rewrite crossings_one by done. do 2 f_equal; lia.
  - destruct x; simpl; rewrite IH by (done || lia); do 2 f_equal; lia.
Qed.

Lemma present_lookup (s : CrossoutState) (n : Z) :
  onTray s n -> present s n = true -> tray s !! Z.to_nat (n - 1) = Some true.
Proof.
  unfold onTray, present, bit_at. intros Hn Hp.
  destruct (tray s !! Z.to_nat (n - 1)) as [[]|] eqn:E; try done.
Qed.

(** Crossing out two distinct numbers that are present and whose sum is
    within the bound leads to a position that [areSubsequent] accepts. *)
Lemma areSubsequent_joint (s : CrossoutState) (a b : Z) :
  onTray s a -> onTray s b -> a <> b ->
  present s a = true -> present s b = true -> a + b <= MAX_SUM s ->
  areSubsequent s (construct (MAX_SUM s) (cross b (cross a (tray s))) (negb (ourTurn s)))
  = true.
Proof.
  intros Ha Hb Hab Pa Pb Hsum. unfold areSubsequent, cross. simpl.
  rewrite Z.eqb_refl, !length_insert, Nat.eqb_refl. simpl.
  replace (Bool.eqb (ourTurn s) (negb (ourTurn s))) with false by (by destruct (ourTurn s)).
  rewrite crossings_two by (unfold onTray in *; (lia || by apply present_lookup)).
  unfold MIN_TAKEN, MAX_TAKEN, onTray in *. simpl.
  apply Z.leb_le. lia.
Qed.

(** So does crossing out one number that is present and within the
    bound. *)
Lemma areSubsequent_sole (s : CrossoutState) (a : Z) :
  onTray s a -> present s a = true -> a <= MAX_SUM s ->
  areSubsequent s (construct (MAX_SUM s) (cross a (tray s)) (negb (ourTurn s))) = true.
Proof.
  intros Ha Pa Hsum. unfold areSubsequent, cross. simpl.
  rewrite Z.eqb_refl, !length_insert, Nat.eqb_refl. simpl.
  replace (Bool.eqb (ourTurn s) (negb (ourTurn s))) with false by (by destruct (ourTurn s)).
  rewrite crossings_one by (by apply present_lookup).
  unfold MIN_TAKEN, MAX_TAKEN, onTray in *. simpl.
  apply Z.leb_le. lia.
Qed.

(** [areSubsequent] accepts every move of the game. *)
Lemma legalMove_areSubsequent (P S : CrossoutState) :
  legalMove P S -> areSubsequent P S = true.
Proof.
  intros (Hsum & Hturn & Hmove).
  change (areSubsequent P (construct (MAX_SUM S) (tray S) (ourTurn S)) = true).
  rewrite Hsum, Hturn.
  destruct Hmove as [(a & Ha & Pa & Hbound & ->)|(a & b & Ha & Hb & Hab & Pa & Pb & Hbound & ->)].
  - by apply areSubsequent_sole.
  - by apply areSubsequent_joint.
Qed.

Lemma cross_twice (a : Z) (t : list bool) : cross a (cross a t) = cross a t.
Proof. unfold cross. apply list_insert_insert_eq. Qed.

(** The advancing constructor of the build without assertions, given one
    number of the tray, or two. *)
Lemma advance_NDEBUG_sole (s : CrossoutState) (a none : Z) :
  onTray s a -> none <= 0 ->
  advance_NDEBUG s a none
  = build_NDEBUG (MAX_SUM s) (cross a (tray s)) (negb (ourTurn s)).
Proof.
  unfold onTray, advance_NDEBUG, store, cross. intros Ha Hnone.
  replace (int_lt_size (a - 1) (length (tray s))) with true
    by (symmetry; rewrite int_lt_size_spec; lia).
  simpl. by replace (-1 <? none - 1) with false by (symmetry; apply Z.ltb_ge; lia).
Qed.

Lemma advance_NDEBUG_joint (s : CrossoutState) (a b : Z) :
  onTray s a -> onTray s b ->
  advance_NDEBUG s a b
  = build_NDEBUG (MAX_SUM s) (cross b (cross a (tray s))) (negb (ourTurn s)).
Proof.
  unfold onTray, advance_NDEBUG, store, cross. intros Ha Hb.
  replace (int_lt_size (a - 1) (length (tray s))) with true
    by (symmetry; rewrite int_lt_size_spec; lia).
  simpl. replace (-1 <? b - 1) with true by (symmetry; apply Z.ltb_lt; lia).
  rewrite length_insert.
  by replace (int_lt_size (b - 1) (length (tray s))) with true
    by (symmetry; rewrite int_lt_size_spec; lia).
Qed.

(** In the build without assertions every call that [successors] makes and
    that returns, returns a move of the game: called with one number twice,
    the constructor crosses it out alone. *)
Lemma advance_NDEBUG_legalMove (P S : CrossoutState) (first second : Z) :
  In (first, second) (successorCalls P) ->
  advance_NDEBUG P first second = Returns S ->
  legalMove P S.
Proof.
  intros Hcall Hbuilt.
  apply In_successorCalls in Hcall as (Hon & Hp & Hbound & [->|(Hon2 & Hp2 & Hsum)]).
  - rewrite advance_NDEBUG_sole in Hbuilt by done.
    apply build_NDEBUG_Returns in Hbuilt as ->.
    split; [done|]. split; [done|]. left. by exists first.
  - rewrite advance_NDEBUG_joint in Hbuilt by done.
    apply build_NDEBUG_Returns in Hbuilt as ->.
    split; [done|]. split; [done|].
    destruct (decide (first = second)) as [<-|Hne].
    + left. exists first. simpl. rewrite cross_twice. by split_and!.
    + right. by exists first, second.
Qed.

Lemma successors_NDEBUG_legalMove (P S : CrossoutState) (possibilities : list CrossoutState) :
  successors_NDEBUG P = Returns possibilities -> In S possibilities -> legalMove P S.
Proof.
  intros Hsucc HS. rewrite successors_NDEBUG_forEach in Hsucc.
  destruct (forEach_Returns_In _ _ _ _ Hsucc HS) as ([first second] & Hcall & Hbuilt).
  by apply (advance_NDEBUG_legalMove P S first second).
Qed.


(** With assertions, a call that [successors] makes and that returns,
    returns a move of the game. *)
Lemma advance_legalMove (P S : CrossoutState) (first second : Z) :
  In (first, second) (successorCalls P) ->
  advance P first second = Returns S ->
  legalMove P S.
Proof.
  intros Hcall Hbuilt.
  apply In_successorCalls in Hcall as (_ & _ & _ & [->|(_ & _ & Hsum)]).
  - apply advance_Returns in Hbuilt as (_ & Hb & _). unfold onTray, NO_SECOND_THEFT in Hb. lia.
  - apply advance_Returns in Hbuilt as (Ha & Hb & Hab & Pa & Pb & ->).
    split; [done|]. split; [done|]. right. by exists first, second.
Qed.

Lemma successors_legalMove (P S : CrossoutState) (possibilities : list CrossoutState) :
  successors P = Returns possibilities -> In S possibilities -> legalMove P S.
Proof.
  intros Hsucc HS. rewrite successors_forEach in Hsucc.
  destruct (forEach_Returns_In _ _ _ _ Hsucc HS) as ([first second] & Hcall & Hbuilt).
  by apply (advance_legalMove P S first second).
Qed.

(** C4: every position in the vector that [successors(P)] returns follows
    [P] by [areSubsequent], in the build with assertions and in the one
    without; and so does every position that a call of the advancing
    constructor made by [successors] returns. *)
Theorem successors_areSubsequent (P : CrossoutState) :
  (forall possibilities S,
      successors P = Returns possibilities ->
      In S possibilities ->
      areSubsequent P S = true)
  /\ (forall possibilities S,
         successors_NDEBUG P = Returns possibilities ->
         In S possibilities ->
         areSubsequent P S = true)
  /\ (forall first second S,
         In (first, second) (successorCalls P) ->
         advance P first second = Returns S ->
         areSubsequent P S = true).
Proof.
  split; [|split].
  - intros possibilities S Hsucc HS.
    apply legalMove_areSubsequent. by apply (successors_legalMove P S possibilities).
  - intros possibilities S Hsucc HS.
    apply legalMove_areSubsequent. by apply (successors_NDEBUG_legalMove P S possibilities).
  - intros first second S Hcall Hbuilt.
    apply legalMove_areSubsequent. by apply (advance_legalMove P S first second).
Qed.

(** The opening position of the game on the numbers 1..2 with sum bound 3,
    in the build without assertions: [successors] returns five positions,
    and [areSubsequent] accepts the first of them. *)
Lemma successors_areSubsequent_witness :
  successors_NDEBUG (initial 3 2 true)
  = Returns [construct 3 [false; true] false; construct 3 [false; true] false;
             construct 3 [false; false] false; construct 3 [true; false] false;
             construct 3 [false; false] false]
  /\ areSubsequent (initial 3 2 true) (construct 3 [false; true] false) = true.
Proof.
  split; [reflexivity|].
  eapply (proj1 (proj2 (successors_areSubsequent (initial 3 2 true)))).
  - reflexivity.
  - by left.
Defined.

End Subsequent.

(** ** What [successors] does *)

Section SuccessorsOutcome.

Import Crossout.

(** [successors] returns only from a position without a present number
    within the bound, and then returns nothing: its first call of the
    advancing constructor is a sole removal, which is stopped. *)
Lemma successors_outcome (s : CrossoutState) :
  successors s
  = match reached s (fun first => first <=? MAX_SUM s) with
    | [] => Returns []
    | _ :: _ => Aborts second_theft_in_range
    end.
Proof.
  rewrite successors_forEach. unfold successorCalls.
  destruct (reached s _) as [|first firsts] eqn:Hreached; [done|].
  assert (In first (reached s (fun first => first <=? MAX_SUM s))) as Hfirst
    by (rewrite Hreached; by left).
  apply In_reached in Hfirst as (Hon & _). simpl.
  by rewrite advance_sole.
Qed.



(** At that position, with assertions: the calls of [successors] are the
    sole removal of 1 and the call with 1 and 1; the first is stopped by
    the second range assertion, so the second is not made. *)
Remark successors_stopped_at_opening :
  successors (initial 2 1 true) = Aborts second_theft_in_range
  /\ successorCalls (initial 2 1 true) = [(1, 0); (1, 1)]
  /\ advance (initial 2 1 true) 1 0 = Aborts second_theft_in_range
  /\ advance (initial 2 1 true) 1 1 = Aborts second_theft_present.
Proof. done. Qed.

(** C3, at the opening position of the game on the numbers 1..2 with sum
    bound 3, where crossing out 1, 2, or 1 and 2 are the moves:
    [successors] returns none of them, being stopped at its first call, and
    its calls take the pair of 1 and 2 in both orders and the pair of 1 and
    1. *)
Theorem successors_calls_each_pair_twice :
  successors (initial 3 2 true) = Aborts second_theft_in_range
  /\ successorCalls (initial 3 2 true) = [(1, 0); (1, 1); (1, 2); (2, 0); (2, 1)]
  /\ areSubsequent (initial 3 2 true) (construct 3 [false; true] false) = true
  /\ areSubsequent (initial 3 2 true) (construct 3 [true; false] false) = true
  /\ areSubsequent (initial 3 2 true) (construct 3 [false; false] false) = true
  /\ advance (initial 3 2 true) 1 2 = Returns (construct 3 [false; false] false)
  /\ advance (initial 3 2 true) 2 1 = Returns (construct 3 [false; false] false).
Proof. done. Qed.

End SuccessorsOutcome.

(** ** The move between two positions *)

Section Diff.

Import Crossout.

Lemma crossings_tail (x y : bool) (t t' : list bool) (num count sum : Z) (r : Z * Z) :
  crossings num (x :: t) (y :: t') count sum = Some r ->
  (x = y \/ x = true /\ y = false)
  /\ exists count' sum', crossings (num + 1) t t' count' sum' = Some r.
Proof. destruct x, y; simpl; [| |done|]; eauto 6. Qed.

(** [areSubsequent] counts the numbers that [diff] lists. *)
Lemma crossings_count (t t' : list bool) (num count sum count' sum' : Z) :
  crossings num t t' count sum = Some (count', sum') ->
  count' = count + Z.of_nat (length (changes num t t')).
Proof.
  revert t' num count sum.
  induction t as [|x t IH]; intros [|y t'] num count sum; simpl;
    try (intros [= <- <-]; lia).
  destruct x, y; simpl; [| |done|]; intros H; apply IH in H; lia.
Qed.

Lemma changes_none (t t' : list bool) (num count sum : Z) (r : Z * Z) :
  length t = length t' -> crossings num t t' count sum = Some r ->
  changes num t t' = [] -> t' = t.
Proof.
  revert t' num count sum.
  induction t as [|x t IH]; intros [|y t'] num count sum Hlen Hc Hd; simplify_eq/=; [done|].
  apply crossings_tail in Hc as ([->|[-> ->]] & count' & sum' & Hc); [|done].
  rewrite Bool.eqb_reflx in Hd. simpl in Hd. f_equal. by eapply IH.
Qed.

Lemma changes_one (t t' : list bool) (num count sum : Z) (r : Z * Z) (a : Z) :
  length t = length t' -> crossings num t t' count sum = Some r ->
  changes num t t' = [a] ->
  exists i : nat, a = num + Z.of_nat i + 1 /\ t !! i = Some true /\ t' = <[i := false]> t.
Proof.
  revert t' num count sum.
  induction t as [|x t IH]; intros [|y t'] num count sum Hlen Hc Hd; simplify_eq/=.
  apply crossings_tail in Hc as ([->|[-> ->]] & count' & sum' & Hc).
  - rewrite Bool.eqb_reflx in Hd. simpl in Hd.
    destruct (IH _ _ _ _ Hlen Hc Hd) as (i & -> & Hi & ->).
    exists (S i). split; [lia | done].
  - simpl in Hd. injection Hd as <- Hd. exists 0%nat. split; [lia|]. split; [done|].
    simpl. f_equal. by eapply changes_none.
Qed.

Lemma changes_two (t t' : list bool) (num count sum : Z) (r : Z * Z) (a b : Z) :
  length t = length t' -> crossings num t t' count sum = Some r ->
  changes num t t' = [a; b] ->
  exists i j : nat,
    a = num + Z.of_nat i + 1 /\ b = num + Z.of_nat j + 1 /\ i <> j
    /\ t !! i = Some true /\ t !! j = Some true
    /\ t' = <[j := false]> (<[i := false]> t).
Proof.
  revert t' num count sum.
  induction t as [|x t IH]; intros [|y t'] num count sum Hlen Hc Hd; simplify_eq/=.
  apply crossings_tail in Hc as ([->|[-> ->]] & count' & sum' & Hc).
  - rewrite Bool.eqb_reflx in Hd. simpl in Hd.
    destruct (IH _ _ _ _ Hlen Hc Hd) as (i & j & -> & -> & Hij & Hi & Hj & ->).
    exists (S i), (S j). split_and!; (done || lia).
  - simpl in Hd. injection Hd as <- Hd.
    destruct (changes_one _ _ _ _ _ _ _ Hlen Hc Hd) as (j & -> & Hj & ->).
    exists 0%nat, (S j). split_and!; (done || lia).
Qed.

(** What [areSubsequent] has checked when it answers [true]. *)
Lemma areSubsequent_true (first next : CrossoutState) :
  areSubsequent first next = true ->
  MAX_SUM first = MAX_SUM next
  /\ length (tray first) = length (tray next)
  /\ ourTurn next = negb (ourTurn first)
  /\ exists count sum,
       crossings 0 (tray first) (tray next) 0 0 = Some (count, sum)
       /\ MIN_TAKEN <= count <= MAX_TAKEN /\ sum <= MAX_SUM first.
Proof.
  unfold areSubsequent.
  destruct (Z.eqb_spec (MAX_SUM first) (MAX_SUM next)); simpl; [|done].
  destruct (Nat.eqb_spec (length (tray first)) (length (tray next))); simpl; [|done].
  destruct (Bool.eqb _ _) eqn:Hturn; [done|].
  destruct (crossings _ _ _ _ _) as [[count sum]|]; [|done].
  rewrite !andb_true_iff, !Z.leb_le. intros [[? ?] ?].
  split_and!; try done; [|by eauto 6].
  by destruct (ourTurn first), (ourTurn next).
Qed.

(** Between two positions that [areSubsequent] accepts, [diff] returns one
    number or two. *)
Lemma diff_one_or_two (first next : CrossoutState) :
  areSubsequent first next = true ->
  exists descriptor,
    diff first next = Returns descriptor
    /\ (length descriptor = 1 \/ length descriptor = 2)%nat.
Proof.
  intros Hsub. unfold diff. rewrite Hsub. simpl. eexists. split; [done|].
  apply areSubsequent_true in Hsub as (_ & _ & _ & count & sum & Hc & Hcount & _).
  apply crossings_count in Hc. unfold MIN_TAKEN, MAX_TAKEN in *. lia.
Qed.

Lemma std_equal_refl (t : list bool) : std_equal Bool.eqb t t = Returns true.
Proof. apply (std_equal_true Bool.eqb bool_eqb_spec). exists []. by rewrite app_nil_r. Qed.

(** Two changes, in terms of the numbers crossed out. *)
Lemma changes_two_cross (first next : CrossoutState) (count sum a b : Z) :
  length (tray first) = length (tray next) ->
  crossings 0 (tray first) (tray next) 0 0 = Some (count, sum) ->
  changes 0 (tray first) (tray next) = [a; b] ->
  onTray first a /\ onTray first b /\ a <> b
  /\ present first a = true /\ present first b = true
  /\ tray next = cross b (cross a (tray first)).
Proof.
  intros Hlen Hc Hdiff.
  destruct (changes_two _ _ _ _ _ _ _ _ Hlen Hc Hdiff)
    as (i & j & -> & -> & Hij & Hi & Hj & Htray).
  apply lookup_lt_Some in Hi as Hilen. apply lookup_lt_Some in Hj as Hjlen.
  assert (Z.to_nat (0 + Z.of_nat i + 1 - 1) = i) as Hi' by lia.
  assert (Z.to_nat (0 + Z.of_nat j + 1 - 1) = j) as Hj' by lia.
  unfold onTray, present, bit_at, cross. rewrite Hi', Hj', Hi, Hj.
  split_and!; (done || lia).
Qed.

(** A descriptor of two numbers, applied to the first position through the
    advancing constructor, passes the four assertions of the constructor,
    which goes on to cache the hash of the second position. *)
Lemma diff_joint_replay (first next : CrossoutState) (a b : Z) :
  areSubsequent first next = true -> diff first next = Returns [a; b] ->
  replay first [a; b] = Some (build (MAX_SUM next) (tray next) (ourTurn next)).
Proof.
  intros Hsub Hdiff. unfold diff in Hdiff. rewrite Hsub in Hdiff. simpl in Hdiff.
  injection Hdiff as Hdiff.
  apply areSubsequent_true in Hsub as (Hsum & Hlen & Hturn & count & sum & Hc & _).
  destruct (changes_two_cross _ _ _ _ _ _ Hlen Hc Hdiff)
    as (Ha & Hb & Hab & Pa & Pb & Htray).
  unfold replay. by rewrite advance_joint, <- Htray, Hsum, Hturn.
Qed.




End Diff.

(** ** The positions that the constructors build *)

Section Constructed.

Import Crossout.

Lemma crossedOut_replicate (n : nat) : crossedOut (replicate n true) = 0.
Proof. unfold crossedOut. induction n as [|n IH]; simpl; [done | apply IH]. Qed.

Lemma crossedOut_insert (t : list bool) (i : nat) :
  t !! i = Some true -> crossedOut (<[i := false]> t) = crossedOut t + 1.
Proof.
  unfold crossedOut. revert i. induction t as [|x t IH]; intros i Hi; [done|].
  destruct i as [|i]; simpl in *.
  - injection Hi as ->. simpl. lia.
  - specialize (IH i Hi). destruct x; simpl; lia.
Qed.

Lemma crossedOut_cross (t : list bool) (n : Z) :
  1 <= n -> bit_at t (n - 1) = true -> crossedOut (cross n t) = crossedOut t + 1.
Proof.
  unfold bit_at, cross. intros Hn Hp. apply crossedOut_insert.
  by destruct (t !! Z.to_nat (n - 1)) as [[]|].
Qed.

Lemma crossedOut_nonneg (t : list bool) : 0 <= crossedOut t.
Proof. unfold crossedOut. lia. Qed.

(** The constructors cross numbers out two at a time. *)
Lemma constructed_even (s : CrossoutState) :
  constructed s -> exists k, crossedOut (tray s) = 2 * k.
Proof.
  induction 1 as [greedyDivide highValue weAreUp|base next a b _ [k IH] Hnext].
  - exists 0. apply crossedOut_replicate.
  - apply advance_Returns in Hnext as (Ha & Hb & Hab & Pa & Pb & ->).
    exists (k + 1). unfold onTray, present in *. simpl.
    rewrite crossedOut_cross; [|lia|].
    + rewrite crossedOut_cross; [lia|lia|done].
    + rewrite present_cross by lia. rewrite Pb. simpl.
      by destruct (Z.eqb_spec b a) as [->|].
Qed.

Lemma constructed_hashCached (s : CrossoutState) : constructed s -> hashCached s.
Proof. destruct 1; [apply hashCached_construct | by eapply hashCached_advance]. Qed.

(** [areSubsequent] counts the numbers that are crossed out between the
    two trays. *)
Lemma crossings_crossedOut (t t' : list bool) (num count sum count' sum' : Z) :
  length t = length t' ->
  crossings num t t' count sum = Some (count', sum') ->
  crossedOut t' = crossedOut t + (count' - count).
Proof.
  unfold crossedOut. revert t' num count sum.
  induction t as [|x t IH]; intros [|y t'] num count sum Hlen Hc; simplify_eq/=; [lia|].
  destruct x, y; simpl in *; [| |done|]; apply IH in Hc; (done || lia).
Qed.

(** A position that the advancing constructor has returned passes
    [cacheHash] again. *)
Lemma advance_Returns_build (base next : CrossoutState) (a b : Z) :
  advance base a b = Returns next ->
  build (MAX_SUM next) (tray next) (ourTurn next) = Returns next.
Proof.
  intros Hnext.
  pose proof Hnext as (Ha & Hb & Hab & Pa & Pb & Hconstruct)%advance_Returns.
  rewrite advance_joint in Hnext by done. by rewrite Hconstruct at 1 2 3.
Qed.

(** X20: between two positions that the constructors have built, with
    assertions, and that [areSubsequent] accepts, [diff] returns two
    numbers, which are the numbers present in the first position and
    crossed out in the second; the advancing constructor, given the first
    position and these numbers, returns the second position, which
    [operator==] finds equal to itself. *)
Theorem diff_replayed (P Q : CrossoutState) :
  constructed P -> constructed Q -> areSubsequent P Q = true ->
  exists a b,
    diff P Q = Returns [a; b]
    /\ (forall n, In n [a; b]
                  <-> onTray P n /\ present P n = true /\ present Q n = false)
    /\ replay P [a; b] = Some (Returns Q)
    /\ equals Q Q = Returns true.
Proof.
  intros HP HQ Hsub.
  destruct (diff_one_or_two P Q Hsub) as (descriptor & Hdiff & Hlength).
  pose proof Hsub as Htrue.
  apply areSubsequent_true in Htrue as (_ & Hlen & _ & count & sum & Hc & Hcount & _).
  pose proof (crossings_crossedOut _ _ _ _ _ _ _ Hlen Hc) as Hcrossed.
  pose proof (crossings_count _ _ _ _ _ _ _ Hc) as Hchanges.
  destruct (constructed_even P HP) as [p Hp], (constructed_even Q HQ) as [q Hq].
  unfold MIN_TAKEN, MAX_TAKEN in Hcount.
  assert (count = 2) as -> by lia.
  pose proof Hdiff as Hd. unfold diff in Hd. rewrite Hsub in Hd. simpl in Hd.
  injection Hd as Hd. rewrite Hd in Hchanges.
  destruct descriptor as [|a [|b [|c descriptor]]]; simpl in Hchanges; try lia.
  exists a, b. split; [done|].
  destruct (changes_two_cross _ _ _ _ _ _ Hlen Hc Hd) as (Ha & Hb & Hab & Pa & Pb & Htray).
  split; [|split].
  - intros n. unfold present in *. rewrite Htray. split.
    + unfold onTray in *.
      intros [<-|[<-|[]]]; (split; [done|]; split; [done|]);
        rewrite !present_cross by (rewrite ?length_cross; lia);
        rewrite ?Pa, ?Pb, ?Z.eqb_refl; simpl; by rewrite ?andb_false_r.
    + unfold onTray in *. intros (Hn & Pn & Qn).
      rewrite !present_cross, Pn in Qn by (rewrite ?length_cross; lia). simpl in Qn.
      destruct (Z.eqb_spec n a) as [->|]; [by left|].
      destruct (Z.eqb_spec n b) as [->|]; [by right; left | done].
  - rewrite (diff_joint_replay P Q a b Hsub Hdiff). f_equal.
    destruct HQ as [greedyDivide highValue weAreUp|base next a' b' _ Hnext].
    + unfold initial in Hq, Hcrossed. simpl in Hq, Hcrossed.
      rewrite crossedOut_replicate in Hcrossed.
      pose proof (crossedOut_nonneg (tray P)). lia.
    + by apply (advance_Returns_build base next a' b').
  - unfold equals. by rewrite Z.eqb_refl, std_equal_refl, Bool.eqb_reflx.
Qed.

(** The opening position of the game on the numbers 1..2 with sum bound 3
    and the position that crossing out 1 and 2 leads to. *)
Lemma diff_replayed_witness :
  exists a b,
    diff (initial 3 2 true) (construct 3 [false; false] false) = Returns [a; b]
    /\ (forall n, In n [a; b]
                  <-> onTray (initial 3 2 true) n
                      /\ present (initial 3 2 true) n = true
                      /\ present (construct 3 [false; false] false) n = false)
    /\ replay (initial 3 2 true) [a; b] = Some (Returns (construct 3 [false; false] false))
    /\ equals (construct 3 [false; false] false) (construct 3 [false; false] false)
       = Returns true.
Proof.
  apply (diff_replayed (initial 3 2 true) (construct 3 [false; false] false)).
  - apply constructed_initial.
  - apply (constructed_advance (initial 3 2 true) _ 1 2);
      [apply constructed_initial | reflexivity].
  - reflexivity.
Defined.

End Constructed.

(** * Further properties of the positions of Crossout *)

(** ** The assertions of the advancing constructor, in their order *)

Section AdvanceOutcome.

Import Crossout.

Variable base : CrossoutState.

Lemma advance_first_out_of_range (a b : Z) :
  ~ onTray base a -> advance base a b = Aborts first_theft_in_range.
Proof.
  unfold onTray, advance. intros Ha.
  destruct ((0 <=? a - 1) && int_lt_size (a - 1) (length (tray base))) eqn:E; [|done].
  apply andb_true_iff in E as [_ E]. apply int_lt_size_spec in E. lia.
Qed.

Lemma advance_second_out_of_range (a b : Z) :
  onTray base a -> ~ onTray base b -> advance base a b = Aborts second_theft_in_range.
Proof.
  unfold onTray, advance. intros Ha Hb.
  replace ((0 <=? a - 1) && int_lt_size (a - 1) (length (tray base))) with true
    by (symmetry; rewrite andb_true_iff, int_lt_size_spec, Z.leb_le; lia).
  destruct (int_lt_size (b - 1) (length (tray base))) eqn:E; [|done].
  apply int_lt_size_spec in E. lia.
Qed.

(** X1: the advancing constructor, given the numbers [a] and [b], is
    stopped by the first of its assertions that fails, in this order: [a]
    is not a number of the tray; [b] is not a number of the tray; [a] is
    crossed out; [b] is [a] or is crossed out.  Otherwise it crosses out
    [a] and [b], flips the turn and calls [cacheHash], whose shift is
    undefined on a tray of 32 numbers or more and whose assertion stops it
    when the hash is negative; else it returns the position with the sum
    bound kept.  On a tray of at most 30 numbers the hash is not negative.
    The constructor never reads the tray out of its bounds. *)
Theorem advance_outcome (a b : Z) :
  advance base a b
  = (if negb ((1 <=? a) && (a <=? Z.of_nat (length (tray base))))
     then Aborts first_theft_in_range
     else if negb ((1 <=? b) && (b <=? Z.of_nat (length (tray base))))
     then Aborts second_theft_in_range
     else if negb (present base a)
     then Aborts first_theft_present
     else if (a =? b) || negb (present base b)
     then Aborts second_theft_present
     else if 32 <=? Z.of_nat (length (tray base))
     then Undefined
     else if hashValue (negb (ourTurn base)) (cross b (cross a (tray base))) <? 0
     then Aborts hash_not_negative
     else Returns (construct (MAX_SUM base) (cross b (cross a (tray base)))
                     (negb (ourTurn base))))
  /\ ((length (tray base) <= 30)%nat ->
      0 <= hashValue (negb (ourTurn base)) (cross b (cross a (tray base)))).
Proof.
  split; [|intros Hlen; apply hashValue_in_range; by rewrite !length_cross].
  destruct ((1 <=? a) && (a <=? Z.of_nat (length (tray base)))) eqn:Ea; simpl.
  2: { apply advance_first_out_of_range. unfold onTray. intros Ha.
       rewrite (proj2 (andb_true_iff _ _)) in Ea; [done|].
       rewrite !Z.leb_le. lia. }
  apply andb_true_iff in Ea. rewrite !Z.leb_le in Ea.
  destruct ((1 <=? b) && (b <=? Z.of_nat (length (tray base)))) eqn:Eb; simpl.
  2: { apply advance_second_out_of_range; [done|]. unfold onTray. intros Hb.
       rewrite (proj2 (andb_true_iff _ _)) in Eb; [done|].
       rewrite !Z.leb_le. lia. }
  apply andb_true_iff in Eb. rewrite !Z.leb_le in Eb.
  destruct (present base a) eqn:Pa; simpl; [|by apply advance_first_absent].
  destruct (Z.eqb_spec a b) as [Hab|Hab]; simpl.
  { apply advance_second_absent; (done || by left). }
  destruct (present base b) eqn:Pb; simpl.
  - rewrite advance_joint by done. unfold build, cacheHash.
    rewrite !length_cross. destruct (32 <=? Z.of_nat (length (tray base))); [done|].
    simpl. rewrite (Z.ltb_antisym 0). by destruct (0 <=? hashValue _ _).
  - apply advance_second_absent; (done || by right).
Qed.

(** X2: without a second number, which the constructor is told by a
    [secondTheft] of zero or less, the advancing constructor returns no
    position: it is stopped by a range assertion, the second one when the
    first number is a number of the tray. *)
Theorem advance_without_second (a second : Z) :
  second <= 0 ->
  exists failed,
    advance base a second = Aborts failed
    /\ (failed = first_theft_in_range \/ failed = second_theft_in_range)
    /\ (onTray base a -> failed = second_theft_in_range).
Proof.
  intros Hsecond. destruct (decide (onTray base a)) as [Ha|Ha].
  - exists second_theft_in_range. split; [|by split; [right|]].
    apply advance_second_out_of_range; [done|]. unfold onTray. lia.
  - exists first_theft_in_range. split; [by apply advance_first_out_of_range|].
    by split; [left|].
Qed.

End AdvanceOutcome.

(** The sole removal of number 1 at the opening of the game on the numbers
    1..2. *)
Lemma advance_without_second_witness :
  exists failed,
    Crossout.advance (Crossout.initial 3 2 true) 1 0 = Aborts failed
    /\ (failed = first_theft_in_range \/ failed = second_theft_in_range)
    /\ (Crossout.onTray (Crossout.initial 3 2 true) 1 -> failed = second_theft_in_range).
Proof. apply (advance_without_second (Crossout.initial 3 2 true) 1 0). lia. Defined.

(** ** What [successors] returns *)

Section SuccessorsReturn.

Import Crossout.

(** X3: [successors] returns no move.  From a position without a present
    number within the sum bound it returns the empty vector; from any other
    position it is stopped by the second range assertion of the advancing
    constructor, in its first sole removal. *)
Theorem successors_returns_no_move (s : CrossoutState) :
  ((forall n, onTray s n -> n <= MAX_SUM s -> present s n = false) ->
   successors s = Returns [])
  /\ (forall n, onTray s n -> n <= MAX_SUM s -> present s n = true ->
      successors s = Aborts second_theft_in_range).
Proof.
  rewrite successors_outcome.
  assert (forall j k, j <= k -> (k <=? MAX_SUM s) = true -> (j <=? MAX_SUM s) = true)
    as Hdown by (intros j k Hjk; rewrite !Z.leb_le; lia).
  destruct (reached s (fun first => first <=? MAX_SUM s)) as [|first firsts] eqn:Hreached.
  - split; [done|]. intros n Hn Hsum Hp.
    assert (In n (reached s (fun first => first <=? MAX_SUM s))) as Hin
      by (apply In_reached_iff; [done | by rewrite Z.leb_le]).
    by rewrite Hreached in Hin.
  - split; [|done]. intros Hnone.
    assert (In first (reached s (fun first => first <=? MAX_SUM s))) as Hin
      by (rewrite Hreached; by left).
    apply In_reached in Hin as (Hon & Hp & Hc). apply Z.leb_le in Hc.
    by rewrite Hnone in Hp.
Qed.

(** The position with every number crossed out, and the opening position,
    of the game on the numbers 1..2 with sum bound 3. *)
Lemma successors_returns_no_move_witness :
  successors (construct 3 [false; false] false) = Returns []
  /\ successors (initial 3 2 true) = Aborts second_theft_in_range.
Proof.
  split.
  - apply (proj1 (successors_returns_no_move (construct 3 [false; false] false))).
    intros n Hn _. unfold onTray in Hn. simpl in Hn.
    assert (n = 1 \/ n = 2) as [->| ->] by lia; reflexivity.
  - apply (proj2 (successors_returns_no_move (initial 3 2 true)) 1);
      [unfold onTray; simpl; lia | simpl; lia | reflexivity].
Defined.

(** X4: the calls of the advancing constructor that [successors] makes.
    Its loops, whatever the constructor that they call, return what the
    calls of [successorCalls] return, in their order, and are stopped where
    the first of them is; with a constructor that returns its two
    arguments they return [successorCalls] itself.  So do [successors] and,
    in the build without assertions, [successors_NDEBUG].  The calls are
    these: every number of the tray that is present and within the sum
    bound is passed alone and, as the first number, together with every
    number of the tray that is present and keeps the sum within the bound,
    itself and the numbers below it included. *)
Theorem successors_calls (s : CrossoutState) :
  (forall (X : Type) (construction : Z -> Z -> outcome X),
      successorsWith construction s
      = forEach (fun call => construction call.1 call.2) (successorCalls s))
  /\ successorsWith (fun first second => Returns (first, second)) s
     = Returns (successorCalls s)
  /\ successors s = successorsWith (advance s) s
  /\ successors s = forEach (fun call => advance s call.1 call.2) (successorCalls s)
  /\ successors_NDEBUG s
     = forEach (fun call => advance_NDEBUG s call.1 call.2) (successorCalls s)
  /\ forall first second,
       In (first, second) (successorCalls s)
       <-> onTray s first /\ present s first = true /\ first <= MAX_SUM s
           /\ (second = NO_SECOND_THEFT
               \/ onTray s second /\ present s second = true
                  /\ first + second <= MAX_SUM s).
Proof.
  split_and!.
  - intros X construction. apply successorsWith_forEach.
  - rewrite successorsWith_forEach.
    induction (successorCalls s) as [|[first second] calls IH]; simpl; [done|].
    by rewrite IH.
  - reflexivity.
  - apply successors_forEach.
  - apply successors_NDEBUG_forEach.
  - apply In_successorCalls_iff.
Qed.

End SuccessorsReturn.

(** ** When a game of Crossout is over *)

Section GameOverMore.

Import Crossout.

(** X5: [gameOver] answers whether the numbers 1 and 2 are both crossed
    out or missing from the tray; it reads no other number. *)
Theorem gameOver_reads_two_numbers (s : CrossoutState) :
  gameOver s = negb (present s 1) && negb (present s 2).
Proof.
  unfold gameOver, present, bit_at.
  destruct (tray s) as [|[] [|[] [|third rest]]]; reflexivity.
Qed.

(** X6: a game that is over by [gameOver] stays over: the position that
    the advancing constructor returns from it is over too. *)
Theorem gameOver_advance (base next : CrossoutState) (a b : Z) :
  gameOver base = true -> advance base a b = Returns next -> gameOver next = true.
Proof.
  rewrite !gameOver_spec. intros Hover Hnext n Hn Hon.
  apply advance_Returns in Hnext as (Ha & Hb & _ & _ & _ & ->).
  unfold onTray, present in *. simpl in *. rewrite !length_cross in Hon.
  rewrite !present_cross by (rewrite ?length_cross; lia).
  by rewrite Hover.
Qed.

(** Numbers 3 and 4 crossed out after 1 and 2. *)
Lemma gameOver_advance_witness :
  gameOver (construct 3 [false; false; false; false] false) = true.
Proof.
  apply (gameOver_advance (construct 3 [false; false; true; true] true) _ 3 4);
    reflexivity.
Defined.

End GameOverMore.

(** ** The steps that [areSubsequent] accepts *)

Section SubsequentMore.

Import Crossout.

(** [areSubsequent] adds up the numbers that [diff] lists. *)
Lemma crossings_total (t t' : list bool) (num count sum count' sum' : Z) :
  crossings num t t' count sum = Some (count', sum') ->
  sum' = sum + total (changes num t t').
Proof.
  unfold total. revert t' num count sum.
  induction t as [|x t IH]; intros [|y t'] num count sum; simpl;
    try (intros [= <- <-]; lia).
  destruct x, y; simpl; [| |done|]; intros H; apply IH in H; lia.
Qed.

Lemma changes_one_cross (first next : CrossoutState) (count sum a : Z) :
  length (tray first) = length (tray next) ->
  crossings 0 (tray first) (tray next) 0 0 = Some (count, sum) ->
  changes 0 (tray first) (tray next) = [a] ->
  onTray first a /\ present first a = true /\ tray next = cross a (tray first).
Proof.
  intros Hlen Hc Hdiff.
  destruct (changes_one _ _ _ _ _ _ _ Hlen Hc Hdiff) as (i & -> & Hi & Htray).
  apply lookup_lt_Some in Hi as Hilen.
  assert (Z.to_nat (0 + Z.of_nat i + 1 - 1) = i) as Hi' by lia.
  unfold onTray, present, bit_at, cross. rewrite Hi', Hi.
  split_and!; (done || lia).
Qed.

(** Two changes come in the order of the tray. *)
Lemma changes_two_ordered (t t' : list bool) (num count sum : Z) (r : Z * Z) (a b : Z) :
  length t = length t' -> crossings num t t' count sum = Some r ->
  changes num t t' = [a; b] -> a < b.
Proof.
  revert t' num count sum.
  induction t as [|x t IH]; intros [|y t'] num count sum Hlen Hc Hd; simplify_eq/=.
  apply crossings_tail in Hc as ([->|[-> ->]] & count' & sum' & Hc).
  - rewrite Bool.eqb_reflx in Hd. simpl in Hd. by eapply IH.
  - simpl in Hd. injection Hd as <- Hd.
    destruct (changes_one _ _ _ _ _ _ _ Hlen Hc Hd) as (j & -> & _). lia.
Qed.

(** [areSubsequent] reads the sum bound, the tray and the turn of a
    position, not its cached hash. *)
Lemma areSubsequent_fields (first next : CrossoutState) :
  areSubsequent first next
  = areSubsequent first (construct (MAX_SUM next) (tray next) (ourTurn next)).
Proof. reflexivity. Qed.

(** X7: [areSubsequent] accepts exactly the moves of the game.  It answers
    [true] if and only if the second position has the sum bound of the
    first and the other player to move, and its tray is the tray of the
    first with one present number within the sum bound crossed out, or
    with two distinct present numbers crossed out whose sum is within the
    bound. *)
Theorem areSubsequent_iff (first next : CrossoutState) :
  areSubsequent first next = true
  <-> MAX_SUM next = MAX_SUM first
      /\ ourTurn next = negb (ourTurn first)
      /\ ((exists a,
              onTray first a /\ present first a = true /\ a <= MAX_SUM first
              /\ tray next = cross a (tray first))
          \/ (exists a b,
                 onTray first a /\ onTray first b /\ a <> b
                 /\ present first a = true /\ present first b = true
                 /\ a + b <= MAX_SUM first
                 /\ tray next = cross b (cross a (tray first)))).
Proof.
  split.
  - intros Hsub.
    apply areSubsequent_true in Hsub
      as (Hsum & Hlen & Hturn & count & sum & Hc & Hcount & Hbound).
    pose proof (crossings_count _ _ _ _ _ _ _ Hc) as Hchanges.
    pose proof (crossings_total _ _ _ _ _ _ _ Hc) as Htotal.
    unfold MIN_TAKEN, MAX_TAKEN in Hcount.
    split; [done|]. split; [done|].
    destruct (changes 0 (tray first) (tray next)) as [|a [|b [|c rest]]] eqn:Hd;
      simpl in Hchanges; try lia.
    + left. exists a.
      destruct (changes_one_cross _ _ _ _ _ Hlen Hc Hd) as (Ha & Pa & Htray).
      unfold total in Htotal. simpl in Htotal. split_and!; (done || lia).
    + right. exists a, b.
      destruct (changes_two_cross _ _ _ _ _ _ Hlen Hc Hd)
        as (Ha & Hb & Hab & Pa & Pb & Htray).
      unfold total in Htotal. simpl in Htotal. split_and!; (done || lia).
  - intros (Hsum & Hturn & Hmove). rewrite areSubsequent_fields, Hsum, Hturn.
    destruct Hmove as [(a & Ha & Pa & Hbound & ->)
                      |(a & b & Ha & Hb & Hab & Pa & Pb & Hbound & ->)].
    + by apply areSubsequent_sole.
    + by apply areSubsequent_joint.
Qed.

Lemma crossings_back (t t' : list bool) (num count sum count' sum' : Z) :
  crossings num t t' count sum = Some (count', sum') -> count < count' ->
  forall count2 sum2, crossings num t' t count2 sum2 = None.
Proof.
  revert t' num count sum.
  induction t as [|x t IH]; intros [|y t'] num count sum; simpl;
    try (intros [= <- <-]; lia).
  destruct x, y; simpl; [| |done|]; intros Hc Hlt count2 sum2; try done;
    by eapply IH.
Qed.

(** X8: [areSubsequent] accepts no step back: of two positions that it
    accepts in one order it rejects the other order. *)
Theorem areSubsequent_one_way (first next : CrossoutState) :
  areSubsequent first next = true -> areSubsequent next first = false.
Proof.
  intros Hsub.
  apply areSubsequent_true in Hsub as (_ & _ & _ & count & sum & Hc & Hcount & _).
  unfold MIN_TAKEN in Hcount. unfold areSubsequent.
  destruct (negb _ || negb _ || Bool.eqb _ _); [done|].
  by rewrite (crossings_back _ _ _ _ _ _ _ Hc) by lia.
Qed.

(** The opening of the game on the numbers 1..2 and the position after 1
    and 2 are crossed out. *)
Lemma areSubsequent_one_way_witness :
  areSubsequent (construct 3 [false; false] false) (initial 3 2 true) = false.
Proof.
  by apply (areSubsequent_one_way (initial 3 2 true) (construct 3 [false; false] false)).
Defined.

(** X9: a position is not equal to a position that follows it:
    [operator==], in either order, answers [false] of two positions that
    [areSubsequent] accepts, and reads neither tray past its end. *)
Theorem areSubsequent_not_equal (first next : CrossoutState) :
  areSubsequent first next = true ->
  equals first next = Returns false /\ equals next first = Returns false.
Proof.
  intros Hsub. apply areSubsequent_true in Hsub as (_ & Hlen & Hturn & _).
  split.
  - destruct (equals_same_size first next Hlen) as ([] & Heq & Hspec); [|done].
    destruct Hspec as [(_ & _ & Hsame) _]; [done|].
    rewrite Hsame in Hturn. by destruct (ourTurn next).
  - destruct (equals_same_size next first (eq_sym Hlen)) as ([] & Heq & Hspec); [|done].
    destruct Hspec as [(_ & _ & Hsame) _]; [done|].
    rewrite Hsame in Hturn. by destruct (ourTurn first).
Qed.

Lemma areSubsequent_not_equal_witness :
  equals (initial 3 2 true) (construct 3 [false; false] false) = Returns false
  /\ equals (construct 3 [false; false] false) (initial 3 2 true) = Returns false.
Proof.
  by apply (areSubsequent_not_equal (initial 3 2 true) (construct 3 [false; false] false)).
Defined.

End SubsequentMore.

(** ** [diff] after the advancing constructor *)

Section RoundTrip.

Import Crossout.

Lemma changes_same (t : list bool) (num : Z) : changes num t t = [].
Proof.
  revert num. induction t as [|x t IH]; intros num; simpl; [done|].
  rewrite Bool.eqb_reflx. simpl. apply IH.
Qed.

Lemma changes_insert_one (t : list bool) (i : nat) (num : Z) :
  t !! i = Some true -> changes num t (<[i := false]> t) = [num + Z.of_nat i + 1].
Proof.
  revert i num. induction t as [|x t IH]; intros i num Hi; [done|].
  destruct i as [|i]; simpl in *.
  - injection Hi as ->. simpl. rewrite changes_same. f_equal. lia.
  - rewrite Bool.eqb_reflx. simpl. rewrite IH by done. f_equal. lia.
Qed.

Lemma changes_insert_two (t : list bool) (i j : nat) (num : Z) :
  (i < j)%nat -> t !! i = Some true -> t !! j = Some true ->
  changes num t (<[j := false]> (<[i := false]> t))
  = [num + Z.of_nat i + 1; num + Z.of_nat j + 1].
Proof.
  revert i j num. induction t as [|x t IH]; intros i j num Hij Hi Hj; [done|].
  destruct i as [|i], j as [|j]; simpl in *; try lia.
  - injection Hi as ->. simpl. rewrite changes_insert_one by done.
    f_equal; [lia|]. f_equal. lia.
  - rewrite Bool.eqb_reflx. simpl. rewrite IH by (done || lia).
    f_equal; [lia|]. f_equal. lia.
Qed.

(** The numbers that [diff] lists between a tray and the tray with two
    present numbers crossed out, in whichever order they were crossed
    out. *)
Lemma changes_cross_two (s : CrossoutState) (a b : Z) :
  onTray s a -> onTray s b -> a <> b ->
  present s a = true -> present s b = true ->
  changes 0 (tray s) (cross b (cross a (tray s))) = [Z.min a b; Z.max a b].
Proof.
  intros Ha Hb Hab Pa Pb.
  pose proof (present_lookup s a Ha Pa) as La.
  pose proof (present_lookup s b Hb Pb) as Lb.
  unfold onTray, cross in *.
  destruct (decide (a < b)) as [Hlt|Hge].
  - rewrite changes_insert_two by (done || lia). f_equal; [lia|]. f_equal. lia.
  - rewrite list_insert_insert_ne by lia.
    rewrite changes_insert_two by (done || lia). f_equal; [lia|]. f_equal. lia.
Qed.

(** X10: from the position that the advancing constructor returns, the
    move is read back when, and only when, it was within the sum bound,
    which the constructor has not checked.  If [a + b] is at most [MAX_SUM]
    then [areSubsequent] accepts the two positions and [diff] returns the
    two numbers, the smaller first; otherwise [areSubsequent] rejects them
    and [diff] is stopped by its assertion. *)
Theorem advance_diff (base next : CrossoutState) (a b : Z) :
  advance base a b = Returns next ->
  areSubsequent base next = (a + b <=? MAX_SUM base)
  /\ diff base next
     = if a + b <=? MAX_SUM base
       then Returns [Z.min a b; Z.max a b]
       else Aborts subsequent_states.
Proof.
  intros Hnext.
  apply advance_Returns in Hnext as (Ha & Hb & Hab & Pa & Pb & ->).
  assert (areSubsequent base
            (construct (MAX_SUM base) (cross b (cross a (tray base)))
               (negb (ourTurn base)))
          = (a + b <=? MAX_SUM base)) as Hsub.
  { unfold areSubsequent, cross. simpl.
    rewrite Z.eqb_refl, !length_insert, Nat.eqb_refl. simpl.
    replace (Bool.eqb (ourTurn base) (negb (ourTurn base))) with false
      by (by destruct (ourTurn base)).
    rewrite crossings_two by (unfold onTray in *; (lia || by apply present_lookup)).
    unfold MIN_TAKEN, MAX_TAKEN, onTray in *. simpl. f_equal. lia. }
  split; [done|]. unfold diff. rewrite Hsub.
  destruct (a + b <=? MAX_SUM base); simpl; [|done].
  by rewrite changes_cross_two.
Qed.

(** Numbers 2 and 1, within the sum bound 3, and numbers 3 and 4, beyond
    it. *)
Lemma advance_diff_witness :
  (areSubsequent (initial 3 4 true) (construct 3 [false; false; true; true] false) = true
   /\ diff (initial 3 4 true) (construct 3 [false; false; true; true] false)
      = Returns [1; 2])
  /\ (areSubsequent (initial 3 4 true) (construct 3 [true; true; false; false] false) = false
      /\ diff (initial 3 4 true) (construct 3 [true; true; false; false] false)
         = Aborts subsequent_states).
Proof.
  split.
  - apply (advance_diff (initial 3 4 true) _ 2 1). reflexivity.
  - apply (advance_diff (initial 3 4 true) _ 3 4). reflexivity.
Defined.

(** X11: what [diff] returns.  Between two positions that [areSubsequent]
    accepts, [diff] returns either one number, present in the first
    position and within the sum bound, or two numbers in increasing order,
    both present in the first position and with a sum within the bound; and
    the tray of the second position is the tray of the first with these
    numbers crossed out.  Between any other two positions [diff] is stopped
    by its assertion. *)
Theorem diff_descriptor (first next : CrossoutState) :
  (areSubsequent first next = true ->
   (exists a,
       diff first next = Returns [a]
       /\ onTray first a /\ present first a = true /\ a <= MAX_SUM first
       /\ tray next = cross a (tray first))
   \/ (exists a b,
          diff first next = Returns [a; b]
          /\ a < b /\ onTray first a /\ onTray first b
          /\ present first a = true /\ present first b = true
          /\ a + b <= MAX_SUM first
          /\ tray next = cross b (cross a (tray first))))
  /\ (areSubsequent first next = false ->
      diff first next = Aborts subsequent_states).
Proof.
  split; intros Hsub; unfold diff; rewrite Hsub; simpl; [|done].
  apply areSubsequent_true in Hsub
    as (Hsum & Hlen & Hturn & count & sum & Hc & Hcount & Hbound).
  pose proof (crossings_count _ _ _ _ _ _ _ Hc) as Hchanges.
  pose proof (crossings_total _ _ _ _ _ _ _ Hc) as Htotal.
  unfold MIN_TAKEN, MAX_TAKEN in Hcount.
  destruct (changes 0 (tray first) (tray next)) as [|a [|b [|c rest]]] eqn:Hd;
    simpl in Hchanges; try lia.
  - left. exists a.
    destruct (changes_one_cross _ _ _ _ _ Hlen Hc Hd) as (Ha & Pa & Htray).
    unfold total in Htotal. simpl in Htotal. split_and!; (done || lia).
  - right. exists a, b.
    destruct (changes_two_cross _ _ _ _ _ _ Hlen Hc Hd)
      as (Ha & Hb & Hab & Pa & Pb & Htray).
    pose proof (changes_two_ordered _ _ _ _ _ _ _ _ Hlen Hc Hd) as Hlt.
    unfold total in Htotal. simpl in Htotal. split_and!; (done || lia).
Qed.

Lemma diff_descriptor_witness :
  (exists a,
      diff (initial 3 2 true) (construct 3 [false; false] false) = Returns [a]
      /\ onTray (initial 3 2 true) a /\ present (initial 3 2 true) a = true
      /\ a <= MAX_SUM (initial 3 2 true)
      /\ tray (construct 3 [false; false] false) = cross a (tray (initial 3 2 true)))
  \/ (exists a b,
         diff (initial 3 2 true) (construct 3 [false; false] false) = Returns [a; b]
         /\ a < b /\ onTray (initial 3 2 true) a /\ onTray (initial 3 2 true) b
         /\ present (initial 3 2 true) a = true /\ present (initial 3 2 true) b = true
         /\ a + b <= MAX_SUM (initial 3 2 true)
         /\ tray (construct 3 [false; false] false)
            = cross b (cross a (tray (initial 3 2 true)))).
Proof.
  apply (proj1 (diff_descriptor (initial 3 2 true) (construct 3 [false; false] false))).
  reflexivity.
Defined.

End RoundTrip.

(** ** The hash as a binary number *)

Section HashValue.

Import Crossout.

Lemma binary_nonneg (digits : list bool) : 0 <= binary digits.
Proof. induction digits as [|[] digits IH]; simpl; lia. Qed.

Lemma binary_lt (digits : list bool) : binary digits < 2 ^ Z.of_nat (length digits).
Proof.
  induction digits as [|digit digits IH]; [done|].
  cbn [binary length]. rewrite Nat2Z.inj_succ, Z.pow_succ_r by lia.
  destruct digit; simpl; lia.
Qed.

Lemma binary_app (digits : list bool) (last : bool) :
  binary (digits ++ [last]) = binary digits + 2 ^ Z.of_nat (length digits) * Z.b2z last.
Proof.
  induction digits as [|digit digits IH]; [simpl; lia|].
  cbn [binary length app]. rewrite IH, Nat2Z.inj_succ, Z.pow_succ_r by lia. lia.
Qed.

(** Lists of one length with one number are one list. *)
Lemma binary_inj (digits digits' : list bool) :
  length digits = length digits' -> binary digits = binary digits' -> digits = digits'.
Proof.
  revert digits'. induction digits as [|digit digits IH]; intros [|digit' digits'] Hlen Hb;
    simplify_eq/=; [done|].
  assert (digit = digit' /\ binary digits = binary digits') as [-> Hrest]
    by (destruct digit, digit'; simpl in Hb; split; (done || lia)).
  f_equal. by apply IH.
Qed.

(** The loop of [cacheHash] adds the binary number of the rest of the tray,
    shifted to the position of the iterator, as long as the sum stays
    within [int]. *)
Lemma hashBits_exact (rest : list bool) (count hashCode : Z) :
  0 <= count -> 0 <= hashCode ->
  hashCode + 2 ^ count * binary rest < 2 ^ 31 ->
  hashBits count rest hashCode = hashCode + 2 ^ count * binary rest.
Proof.
  revert count hashCode.
  induction rest as [|present rest IH]; intros count hashCode Hcount Hhash Hfits; simpl in *.
  - lia.
  - pose proof (binary_nonneg rest) as Hrest.
    assert (0 < 2 ^ count) as Hpow by (apply Z.pow_pos_nonneg; lia).
    assert (2 ^ (count + 1) = 2 * 2 ^ count) as Hnext by (rewrite Z.pow_add_r; lia).
    assert (0 <= 2 ^ count * binary rest) as Hprod by (apply Z.mul_nonneg_nonneg; lia).
    assert (int_shl (Z.b2z present) count = Z.b2z present * 2 ^ count) as ->.
    { unfold int_shl. rewrite Z.shiftl_mul_pow2 by lia.
      apply int_wrap_in_range. destruct present; simpl in *; lia. }
    rewrite int_wrap_in_range by (destruct present; simpl in *; lia).
    rewrite IH; rewrite ?Hnext; destruct present; simpl in *; lia.
Qed.

Lemma hashValue_binary (turn : bool) (t : list bool) :
  (length t <= 30)%nat -> hashValue turn t = binary (t ++ [turn]).
Proof.
  intros Hlen. unfold hashValue. rewrite binary_app.
  pose proof (binary_nonneg t) as Hlo. pose proof (binary_lt t) as Hhi.
  assert (2 ^ Z.of_nat (length t) <= 2 ^ 30) by (apply Z.pow_le_mono_r; lia).
  assert (0 < 2 ^ Z.of_nat (length t)) by (apply Z.pow_pos_nonneg; lia).
  assert (int_shl (Z.b2z turn) (Z.of_nat (length t))
          = Z.b2z turn * 2 ^ Z.of_nat (length t)) as ->.
  { unfold int_shl. rewrite Z.shiftl_mul_pow2 by lia.
    apply int_wrap_in_range. destruct turn; simpl; lia. }
  rewrite hashBits_exact by (destruct turn; simpl; lia).
  rewrite Z.pow_0_r, Z.mul_1_l.
  rewrite Z.abs_eq by (destruct turn; simpl; lia).
  rewrite int_wrap_in_range by (destruct turn; simpl; lia). lia.
Qed.

Lemma hash_cached_binary (s : CrossoutState) :
  constructed s -> (length (tray s) <= 30)%nat ->
  hash s = binary (tray s ++ [ourTurn s]).
Proof.
  intros Hs Hlen. apply constructed_hashCached in Hs. unfold hash. rewrite Hs.
  by apply hashValue_binary.
Qed.

(** X15: the hash of a position with at most 30 numbers.  The hash that
    the constructors have cached is the number whose binary digits, the
    least significant first, are the tray (1 for a present number) and then
    the turn (1 for the computer's); it is not negative and is less than
    2^(N+1) for a tray of N numbers. *)
Theorem hash_binary (s : CrossoutState) :
  constructed s -> (length (tray s) <= 30)%nat ->
  hash s = binary (tray s ++ [ourTurn s])
  /\ 0 <= hash s < 2 ^ (Z.of_nat (length (tray s)) + 1).
Proof.
  intros Hs Hlen. rewrite hash_cached_binary by done. split; [done|].
  pose proof (binary_nonneg (tray s ++ [ourTurn s])) as Hlo.
  pose proof (binary_lt (tray s ++ [ourTurn s])) as Hhi.
  rewrite length_app, Nat2Z.inj_add in Hhi. simpl in Hhi. lia.
Qed.

(** The position after 1 and 2 are crossed out of the numbers 1..3: the
    hash is 4, binary 0010 read from the right. *)
Lemma hash_binary_witness :
  hash (construct 3 [false; false; true] false) = binary [false; false; true; false]
  /\ 0 <= hash (construct 3 [false; false; true] false) < 2 ^ (3 + 1).
Proof.
  apply (hash_binary (construct 3 [false; false; true] false)).
  - apply (constructed_advance (initial 3 3 true) _ 1 2);
      [apply constructed_initial | reflexivity].
  - simpl. lia.
Defined.

(** X16: when two hashes collide.  Two positions that the constructors
    have built, with trays of one size of at most 30 numbers, have the same
    hash if and only if they have the same tray and the same turn; the sum
    bound is not hashed. *)
Theorem hash_collision (P Q : CrossoutState) :
  constructed P -> constructed Q ->
  length (tray P) = length (tray Q) -> (length (tray P) <= 30)%nat ->
  hash P = hash Q <-> tray P = tray Q /\ ourTurn P = ourTurn Q.
Proof.
  intros HP HQ Hsame Hlen.
  rewrite (hash_cached_binary P), (hash_cached_binary Q) by (done || lia). split.
  - intros Hb. apply binary_inj in Hb; [|rewrite !length_app; simpl; lia].
    apply app_inj_tail in Hb. by destruct Hb.
  - by intros [-> ->].
Qed.

End HashValue.

(** The opening position of the game on the numbers 1..3 and the position
    after 1 and 2 are crossed out. *)
Lemma hash_collision_witness :
  Crossout.hash (Crossout.initial 3 3 true)
  = Crossout.hash (Crossout.construct 3 [false; false; true] false)
  <-> Crossout.tray (Crossout.initial 3 3 true)
      = Crossout.tray (Crossout.construct 3 [false; false; true] false)
      /\ Crossout.ourTurn (Crossout.initial 3 3 true)
         = Crossout.ourTurn (Crossout.construct 3 [false; false; true] false).
Proof.
  apply (hash_collision (Crossout.initial 3 3 true)
           (Crossout.construct 3 [false; false; true] false)).
  - apply Crossout.constructed_initial.
  - apply (Crossout.constructed_advance (Crossout.initial 3 3 true) _ 1 2);
      [apply Crossout.constructed_initial | reflexivity].
  - reflexivity.
  - simpl. lia.
Defined.

(** ** The outcomes of [operator==] *)

Section EqualsOutcome.

Import Crossout.

Lemma std_equal_Undefined {A : Type} (same : A -> A -> bool) (l1 l2 : list A) :
  (forall x y, same x y = true <-> x = y) ->
  std_equal same l1 l2 = Undefined <-> exists x rest, l1 = l2 ++ x :: rest.
Proof.
  intros same_spec. revert l2. induction l1 as [|x l1 IH]; intros l2; simpl.
  - split; [done|]. intros (x & rest & H). by destruct l2.
  - destruct l2 as [|y l2]; [split; [by exists x, l1 | done]|].
    destruct (same x y) eqn:E.
    + apply same_spec in E as ->. rewrite IH.
      split; intros (z & rest & Hr); exists z, rest; [by rewrite Hr | by simplify_eq/=].
    + split; [done|]. intros (z & rest & [= -> _]).
      by rewrite (proj2 (same_spec y y) eq_refl) in E.
Qed.

Lemma std_equal_not_Aborts {A : Type} (same : A -> A -> bool) (l1 l2 : list A)
    (failed : assertion) :
  std_equal same l1 l2 <> Aborts failed.
Proof.
  revert l2. induction l1 as [|x l1 IH]; intros [|y l2]; simpl; try done.
  by destruct (same x y).
Qed.

(** X12: the outcomes of [CrossoutState::operator==].  It answers [true]
    if and only if the two positions have the same sum bound and turn and
    the tray of the left one begins the tray of the right one, which may be
    longer.  It reads the tray of the right one past its end if and only if
    the sum bounds are the same and the tray of the right one is a proper
    beginning of the tray of the left one.  In every other case it answers
    [false]. *)
Theorem equals_outcome (this another : CrossoutState) :
  (equals this another = Returns true
   <-> MAX_SUM this = MAX_SUM another
       /\ (exists rest, tray another = tray this ++ rest)
       /\ ourTurn this = ourTurn another)
  /\ (equals this another = Undefined
      <-> MAX_SUM this = MAX_SUM another
          /\ exists x rest, tray this = tray another ++ x :: rest)
  /\ (equals this another <> Returns true -> equals this another <> Undefined ->
      equals this another = Returns false).
Proof.
  split; [apply equals_true|]. split.
  - unfold equals.
    destruct (Z.eqb_spec (MAX_SUM this) (MAX_SUM another)) as [Hsum|Hsum].
    + rewrite <- (std_equal_Undefined Bool.eqb _ _ bool_eqb_spec).
      destruct (std_equal Bool.eqb (tray this) (tray another)); simpl;
        (split; [done | by intros [_ ?]]).
    + split; [done | by intros [? _]].
  - intros Htrue Hundefined.
    destruct (equals this another) as [[]|failed|] eqn:E;
      [by destruct Htrue | done | | by destruct Hundefined].
    unfold equals in E. destruct (MAX_SUM this =? MAX_SUM another); [|done].
    destruct (std_equal Bool.eqb (tray this) (tray another)) eqn:E'; try done.
    by apply std_equal_not_Aborts in E'.
Qed.

(** X13: [KaylesState::operator==] reads no vector past its end and
    answers whether the two positions have the same turn and the same pin
    counts, group by group; the cached hash is not compared. *)
Theorem Kayles_equals_decides (this another : Kayles.KaylesState) :
  Kayles.equals this another
  = Returns (bool_decide (Kayles.ourTurn this = Kayles.ourTurn another
                          /\ Kayles.pins this = Kayles.pins another)).
Proof.
  destruct (Kayles_equals_spec this another) as (same & -> & Hsame). f_equal.
  destruct same.
  - symmetry. apply bool_decide_eq_true. by apply Hsame.
  - symmetry. apply bool_decide_eq_false. intros H. apply Hsame in H. done.
Qed.

(** X14: equal positions of one game have one hash: if [operator==] holds
    of two positions that the constructors have built, with trays of one
    size, then their hashes are the same. *)
Theorem equal_positions_same_hash (P Q : CrossoutState) :
  constructed P -> constructed Q -> length (tray P) = length (tray Q) ->
  equals P Q = Returns true -> hash P = hash Q.
Proof.
  intros HP HQ. apply equals_hash_same_size; by apply constructed_hashCached.
Qed.

(** The position after 1 and 2 are crossed out of the numbers 1..3, built
    twice. *)
Lemma equal_positions_same_hash_witness :
  hash (construct 3 [false; false; true] false)
  = hash (construct 3 [false; false; true] false).
Proof.
  apply (equal_positions_same_hash (construct 3 [false; false; true] false)
           (construct 3 [false; false; true] false)).
  - apply (constructed_advance (initial 3 3 true) _ 1 2);
      [apply constructed_initial | reflexivity].
  - apply (constructed_advance (initial 3 3 true) _ 2 1);
      [apply constructed_initial | reflexivity].
  - reflexivity.
  - reflexivity.
Defined.

End EqualsOutcome.

(** ** The synopsis of a position *)

Section Str.

Import Crossout.

Lemma strNumbers_length (t t' : list bool) (position : Z) :
  length t = length t' -> strNumbers position t = strNumbers position t'.
Proof.
  revert t' position. induction t as [|x t IH]; intros [|y t'] position Hlen;
    simplify_eq/=; [done|].
  by rewrite (IH t').
Qed.

(** X17: [str] does not show which numbers are crossed out: it lists every
    number of the tray, so two positions with the same turn and trays of
    one size have the same synopsis. *)
Theorem str_ignores_crossings (P Q : CrossoutState) :
  ourTurn P = ourTurn Q -> length (tray P) = length (tray Q) -> str P = str Q.
Proof.
  intros Hturn Hlen. unfold str. by rewrite Hturn, (strNumbers_length _ _ _ Hlen).
Qed.

(** The opening of the game on the numbers 1..4 and the position with all
    of them crossed out. *)
Lemma str_ignores_crossings_witness :
  str (initial 5 4 true) = "It is the computer's turn and the pins are: 1 2 3 4 "
  /\ str (initial 5 4 true) = str (construct 5 [false; false; false; false] true).
Proof.
  split; [reflexivity|].
  by apply (str_ignores_crossings (initial 5 4 true)
              (construct 5 [false; false; false; false] true)).
Defined.

End Str.

(** ** The positions of a game *)

Section Game.

Import Crossout.

Lemma crossedOut_le_length (t : list bool) : crossedOut t <= Z.of_nat (length t).
Proof.
  unfold crossedOut. induction t as [|[] t IH]; simpl; lia.
Qed.



(** X21: the constructor of a game.  For less than 32 numbers it returns
    the opening position, the hash passing the assertion of [cacheHash];
    for 32 numbers or more the first shift of [cacheHash] is undefined. *)
Theorem game_outcome (greedyDivide highValue : Z) (weAreUp : bool) :
  game greedyDivide highValue weAreUp
  = if 32 <=? highValue then Undefined
    else Returns (initial greedyDivide highValue weAreUp).
Proof.
  destruct (Z.leb_spec 32 highValue) as [Hlarge|Hsmall].
  - unfold game, build, cacheHash. rewrite length_replicate.
    by destruct (Z.leb_spec 32 (Z.of_nat (Z.to_nat highValue))) as [_|]; [|lia].
  - destruct (decide (highValue = 31)) as [->|Hne].
    + by destruct weAreUp.
    + apply game_initial. lia.
Qed.

(** X19: the positions of a game.  After [moves] calls of the advancing
    constructor from the opening position of a game, the sum bound and the
    size of the tray are those of the opening, twice [moves] numbers are
    crossed out, the turn has changed hands [moves] times, and the hash is
    the one of the tray and the turn.  So a game on N numbers has at most
    N/2 moves. *)
Theorem playedFrom_invariants
    (greedyDivide highValue : Z) (weAreUp : bool) (moves : nat) (s : CrossoutState) :
  playedFrom (initial greedyDivide highValue weAreUp) moves s ->
  MAX_SUM s = greedyDivide
  /\ length (tray s) = Z.to_nat highValue
  /\ crossedOut (tray s) = 2 * Z.of_nat moves
  /\ ourTurn s = (if Nat.even moves then weAreUp else negb weAreUp)
  /\ hashCached s
  /\ 2 * Z.of_nat moves <= Z.of_nat (length (tray s)).
Proof.
  intros Hplayed.
  assert (MAX_SUM s = greedyDivide
          /\ length (tray s) = Z.to_nat highValue
          /\ crossedOut (tray s) = 2 * Z.of_nat moves
          /\ ourTurn s = (if Nat.even moves then weAreUp else negb weAreUp)
          /\ hashCached s) as (Hsum & Hlen & Hcrossed & Hturn & Hhash).
  { induction Hplayed as [|moves s next a b _ (Hsum & Hlen & Hcrossed & Hturn & Hhash) Hnext].
    - unfold initial. simpl. rewrite length_replicate, crossedOut_replicate. done.
    - apply advance_Returns in Hnext as (Ha & Hb & Hab & Pa & Pb & ->).
      unfold onTray, present in *. cbn [MAX_SUM tray ourTurn construct].
      rewrite !length_cross. split_and!; try done.
      + rewrite crossedOut_cross; [|lia|].
        * rewrite crossedOut_cross; [lia|lia|done].
        * rewrite present_cross by lia. rewrite Pb. simpl.
          by destruct (Z.eqb_spec b a) as [->|].
      + rewrite Hturn, Nat.even_succ, <- Nat.negb_even.
        by destruct (Nat.even moves), weAreUp. }
  split_and!; try done. rewrite <- Hcrossed. apply crossedOut_le_length.
Qed.

(** One move from the opening of the game on the numbers 1..3. *)
Lemma playedFrom_invariants_witness :
  MAX_SUM (construct 3 [false; false; true] false) = 3
  /\ length (tray (construct 3 [false; false; true] false)) = Z.to_nat 3
  /\ crossedOut (tray (construct 3 [false; false; true] false)) = 2 * Z.of_nat 1
  /\ ourTurn (construct 3 [false; false; true] false)
     = (if Nat.even 1 then true else negb true)
  /\ hashCached (construct 3 [false; false; true] false)
  /\ 2 * Z.of_nat 1 <= Z.of_nat (length (tray (construct 3 [false; false; true] false))).
Proof.
  apply (playedFrom_invariants 3 3 true 1 (construct 3 [false; false; true] false)).
  apply (played_move _ 0 (initial 3 3 true) _ 1 2); [apply played_none | reflexivity].
Defined.

End Game.
